(** * graviton-repo: a shallow embedding of the two demonstration files

    [graviton_problematic.c] and [x86_specific.c] are written for x86-64
    Linux (they use [_pdep_u64], POSIX sockets and ncurses), so the
    integer widths are those of the LP64 data model: [int] and
    [unsigned int] have 32 bits, [unsigned long long], [uint64_t] and
    [size_t] have 64 bits.

    C functions become functions in a state-and-fault monad over a
    [world]: the float arrays in memory together with the state of
    everything outside the two files (the processor's counters, libc,
    OpenSSL, libcurl, zlib, ncurses, the terminal, the network).

    Embedded are all of graviton_problematic.c and, of x86_specific.c,
    [get_cpu_vendor], [rdtsc], [read_msr] and [read_pmc]. Left out are
    the functions of x86_specific.c that compute on float constants
    and drop the result ([sse_operations], [avx_operations],
    [avx512_operations]), its two one-instruction wrappers and its
    [main], which calls them. String literals are kept as the source
    spells them, escape sequences included. *)

From Stdlib Require Import ZArith Lia ZifyBool.
From stdpp Require Import base gmap strings list.

Local Open Scope Z_scope.

(** ** Integer types of the target *)

Module CInt.

Definition INT_MIN : Z := - 2 ^ 31.
Definition INT_MAX : Z := 2 ^ 31 - 1.

(** Conversion to [unsigned int] / [uint32_t]. *)
Definition u32 (x : Z) : Z := x mod 2 ^ 32.

(** Conversion to [unsigned long long] / [uint64_t] / [size_t]. *)
Definition u64 (x : Z) : Z := x mod 2 ^ 64.

(** Conversion to [int] (two's complement). *)
Definition s32 (x : Z) : Z := (x + 2 ^ 31) mod 2 ^ 32 - 2 ^ 31.

(** [x << k], [x | y] and [x * y] at type [uint64_t]. *)
Definition shl64 (x k : Z) : Z := u64 (Z.shiftl x k).
Definition or64 (x y : Z) : Z := Z.lor x y.
Definition mul64 (x y : Z) : Z := u64 (x * y).

(** The values of [unsigned int] / [uint32_t]. *)
Definition is_u32 (x : Z) : Prop := 0 <= x < 2 ^ 32.

End CInt.
Import CInt.

(** ** Pointers, values, faults *)

(** What a pointer is derived from: the null pointer constant, a float
    array that lives in memory block [b], or an automatic object of the
    running function whose address was taken ([&result], [&addr], ...). *)
Inductive base :=
  | Null
  | Block (b : nat)
  | Auto (name : string).

(** A pointer is a base and a byte offset from it. *)
Record ptr := Ptr { p_base : base; p_ofs : Z }.

Definition NULL : ptr := Ptr Null 0.

(** [&p[i]] for [p] of type [float *]. *)
Definition float_elem (p : ptr) (i : Z) : ptr :=
  Ptr (p_base p) (p_ofs p + 4 * i).

(** Arguments handed to code outside the two files. [VSym] is a macro
    or enumerator of a library header ([CURLOPT_URL], [AF_INET]), kept
    by name; [VFun] is the address of a function of this program;
    [VDbl] is a [double] constant, kept as written. *)
Inductive value :=
  | VInt (n : Z)
  | VPtr (p : ptr)
  | VStr (s : string)
  | VSym (name : string)
  | VFun (name : string)
  | VDbl (literal : string).

(** The general-purpose registers the inline assembly constraints name:
    ["a"], ["b"], ["c"], ["d"]. *)
Inductive reg := EAX | EBX | ECX | EDX.

(** Operands of an [__asm__] statement: an input bound to a register,
    a memory input with the value it holds, a memory output. *)
Inductive operand :=
  | OReg (r : reg) (v : Z)
  | OMemIn (p : ptr) (v : value)
  | OMemOut (p : ptr).

Inductive fault :=
  | NullDeref        (* access through a pointer derived from NULL *)
  | InvalidAccess    (* access outside every float array *)
  | Misaligned       (* aligned vector access at an unaligned address *)
  | SignedOverflow   (* [int] arithmetic left the range of [int] *)
  | External (code : Z) (* a library call or an instruction trapped *)
  | OutOfFuel.       (* the loop bound of the embedding ran out *)

Inductive outcome (A : Type) :=
  | Ok (a : A)
  | Fault (f : fault).
Arguments Ok {A} a.
Arguments Fault {A} f.

(** ** The machine *)

(** The parts of the target the two files do not define: the [float]
    type with the lane operations of [mulps] and [addps], and the state
    of the environment. *)
Class Target := {
  F : Type;
  mul_ss : F -> F -> F;
  add_ss : F -> F -> F;
  E : Type
}.

Section Machine.
Context `{T : Target}.

(** A float array: the address it starts at and its elements. *)
Record farray := FArray { fa_addr : Z; fa_data : list F }.

Record world := World { w_mem : gmap nat farray; w_env : E }.

Definition M (A : Type) : Type := world -> outcome (A * world).

Definition ret {A} (a : A) : M A := fun w => Ok (a, w).

Definition fail {A} (f : fault) : M A := fun _ => Fault f.

Definition bind {A B} (c : M A) (k : A -> M B) : M B := fun w =>
  match c w with
  | Ok (a, w') => k a w'
  | Fault f => Fault f
  end.

(** Computations that never exhaust the loop bound of the embedding. *)
Definition bounded {A} (c : M A) : Prop := forall w, c w <> Fault OutOfFuel.

End Machine.

Arguments farray {T}.
Arguments world {T}.
Arguments M {T} A.

Declare Scope prog_scope.
Delimit Scope prog_scope with prog.
Notation "x <- c1 ;; c2" := (bind c1 (fun x => c2))
  (at level 100, c1 at next level, right associativity) : prog_scope.
Notation "c1 ;; c2" := (bind c1 (fun _ => c2))
  (at level 100, right associativity) : prog_scope.
Local Open Scope prog_scope.

(** Code outside the two files: the instructions named in [__asm__]
    statements, which leave their results in the registers, and the
    library functions, by return type. *)
Class Externals `{T : Target} := {
  asm : string -> list operand -> M (reg -> Z);
  call_void : string -> list value -> M unit;
  call_int : string -> list value -> M Z;
  call_ptr : string -> list value -> M ptr
}.

(** ** Memory accesses of the vector intrinsics *)

Section Memory.
Context `{T : Target}.

(** [lanes] floats starting [ofs] bytes into array [a] lie inside it. *)
Definition in_bounds (a : farray) (ofs : Z) (lanes : nat) : bool :=
  (0 <=? ofs) && (ofs mod 4 =? 0)
  && (ofs / 4 + Z.of_nat lanes <=? Z.of_nat (length (fa_data a))).

(** The address [ofs] bytes into [a] is a multiple of the vector size. *)
Definition aligned (a : farray) (ofs : Z) (lanes : nat) : bool :=
  (fa_addr a + ofs) mod (4 * Z.of_nat lanes) =? 0.

(** Where a vector access lands: the block, the array in it and the
    index of the first element accessed. *)
Record slot := Slot { s_block : nat; s_array : farray; s_index : nat }.

(** Resolve a vector access of [lanes] floats through [p]. Only float
    arrays are tracked, so an access through the address of an
    automatic object falls outside every one of them. *)
Definition resolve (lanes : nat) (p : ptr) : M slot := fun w =>
  match p_base p with
  | Null => Fault NullDeref
  | Auto _ => Fault InvalidAccess
  | Block b =>
    match w_mem w !! b with
    | None => Fault InvalidAccess
    | Some a =>
      if in_bounds a (p_ofs p) lanes then
        if aligned a (p_ofs p) lanes
        then Ok (Slot b a (Z.to_nat (p_ofs p / 4)), w)
        else Fault Misaligned
      else Fault InvalidAccess
    end
  end.

Definition vec_load (lanes : nat) (p : ptr) : M (list F) :=
  s <- resolve lanes p ;;
  ret (take lanes (drop (s_index s) (fa_data (s_array s)))).

Definition vec_store (lanes : nat) (p : ptr) (v : list F) : M unit :=
  s <- resolve lanes p ;;
  fun w =>
    let old := fa_data (s_array s) in
    let data := take (s_index s) old ++ v ++ drop (s_index s + lanes) old in
    let a := FArray (fa_addr (s_array s)) data in
    Ok (tt, World (<[s_block s := a]> (w_mem w)) (w_env w)).

(** [<emmintrin.h>]: [__m128] is four floats. *)
Definition _mm_load_ps (p : ptr) : M (list F) := vec_load 4 p.
Definition _mm_store_ps (p : ptr) (v : list F) : M unit := vec_store 4 p v.
Definition _mm_mul_ps (a b : list F) : list F := zip_with mul_ss a b.

(** [<immintrin.h>]: [__m256] is eight floats. *)
Definition _mm256_load_ps (p : ptr) : M (list F) := vec_load 8 p.
Definition _mm256_store_ps (p : ptr) (v : list F) : M unit := vec_store 8 p v.
Definition _mm256_add_ps (a b : list F) : list F := zip_with add_ss a b.

(** The elements of the array in block [b]. *)
Definition array_at (w : world) (b : nat) : option (list F) :=
  fa_data <$> w_mem w !! b.

(** [x + y] at type [int]. *)
Definition int_add (x y : Z) : M Z :=
  if (INT_MIN <=? x + y) && (x + y <=? INT_MAX) then ret (x + y)
  else fail SignedOverflow.

End Memory.

(** ** Byte objects

    [x86_specific.c] and [sse_crypto_hash] work on [char] buffers and
    [uint32_t] cells. Such objects are kept by name, as lists of
    bytes, in the environment of a target extended for the purpose;
    pointers to them have the base [Auto]. The x86 takes these accesses
    at any alignment. The elements of float arrays are abstract, so
    their bytes can be neither read nor written here: a byte access
    through a [Block] pointer stops the embedding with
    [InvalidAccess]. *)

Definition byte_target (T0 : Target) : Target :=
  {| F := @F T0; mul_ss := @mul_ss T0; add_ss := @add_ss T0;
     E := (gmap string (list Z) * @E T0)%type |}.

(** [&p[i]] for [p] of type [char *]. *)
Definition byte_elem (p : ptr) (i : Z) : ptr := Ptr (p_base p) (p_ofs p + i).

(** The bytes of a 32-bit value, low byte first, and the value of a
    sequence of bytes read that way. *)
Definition le32 (x : Z) : list Z :=
  [x mod 256; (x / 2 ^ 8) mod 256; (x / 2 ^ 16) mod 256; (x / 2 ^ 24) mod 256].

Fixpoint le_value (bs : list Z) : Z :=
  match bs with
  | [] => 0
  | b :: bs' => b + 256 * le_value bs'
  end.

Section Bytes.
Context {T0 : Target}.

Definition objects (w : @world (byte_target T0)) : gmap string (list Z) :=
  fst (w_env w).

Definition with_objects (w : @world (byte_target T0))
    (objs : gmap string (list Z)) : @world (byte_target T0) :=
  @World (byte_target T0) (w_mem w) (objs, snd (w_env w)).

(** Where an access of [len] bytes lands: the object, its bytes and
    the index of the first byte accessed. *)
Record span := Span { sp_name : string; sp_bytes : list Z; sp_index : nat }.

Definition resolve_bytes (len : nat) (p : ptr)
  : @M (byte_target T0) span := fun w =>
  match p_base p with
  | Null => Fault NullDeref
  | Block _ => Fault InvalidAccess
  | Auto name =>
    match objects w !! name with
    | None => Fault InvalidAccess
    | Some obj =>
      if (0 <=? p_ofs p)
         && (p_ofs p + Z.of_nat len <=? Z.of_nat (length obj))
      then Ok (Span name obj (Z.to_nat (p_ofs p)), w)
      else Fault InvalidAccess
    end
  end.

Definition load_bytes (len : nat) (p : ptr)
  : @M (byte_target T0) (list Z) :=
  sp <- resolve_bytes len p ;;
  ret (take len (drop (sp_index sp) (sp_bytes sp))).

Definition store_bytes (p : ptr) (bs : list Z)
  : @M (byte_target T0) unit :=
  sp <- resolve_bytes (length bs) p ;;
  fun w =>
    let old := sp_bytes sp in
    let new := take (sp_index sp) old ++ bs
               ++ drop (sp_index sp + length bs) old in
    Ok (tt, with_objects w (<[sp_name sp := new]> (objects w))).

(** [*(uint32_t * )p = x] and [p[0] = c]. *)
Definition store_u32 (p : ptr) (x : Z) : @M (byte_target T0) unit :=
  store_bytes p (le32 (u32 x)).

Definition store_char (p : ptr) (c : Z) : @M (byte_target T0) unit :=
  store_bytes p [c mod 256].

(** [*(uint32_t * )p] read back. *)
Definition load_u32 (p : ptr) : @M (byte_target T0) Z :=
  bs <- load_bytes 4 p ;; ret (le_value bs).

(** [<emmintrin.h>]: [_mm_loadu_si128], sixteen bytes at any alignment
    as one 128-bit value, and [_mm_xor_si128]. *)
Definition _mm_loadu_si128 (p : ptr) : @M (byte_target T0) Z :=
  bs <- load_bytes 16 p ;; ret (le_value bs).

Definition _mm_setzero_si128 : Z := 0.

Definition _mm_xor_si128 (a b : Z) : Z := Z.lxor a b.

End Bytes.

(** ** The parallel bit deposit of BMI2 *)

(** [pdep] as the instruction set reference defines it: walking the
    mask from bit [m] up, every set bit of the mask receives the next
    unused bit of [temp], counted by [k] from the low end. *)
Fixpoint pdep_loop (count : nat) (temp mask m k dest : Z) : Z :=
  match count with
  | O => dest
  | S count' =>
    if Z.testbit mask m
    then pdep_loop count' temp mask (m + 1) (k + 1)
           (Z.lor dest (Z.shiftl (Z.b2z (Z.testbit temp k)) m))
    else pdep_loop count' temp mask (m + 1) k dest
  end.

(** [<immintrin.h>]: [_pdep_u64(a, mask)] on 64-bit operands. *)
Definition _pdep_u64 (a mask : Z) : Z :=
  pdep_loop 64 (u64 a) (u64 mask) 0 0 0.

(** ** graviton_problematic.c *)

Module GravitonProblematic.
Section Program.
Context `{X : Externals}.

(** [__cpuid(1, eax, ebx, ecx, edx)] is the macro of [<cpuid.h>]: the
    [cpuid] instruction with the leaf in [eax]. *)
Definition x86_cpuid_test : M unit :=
  regs <- asm "cpuid" [OReg EAX 1] ;;
  let ecx := u32 (regs ECX) in
  if Z.land ecx (Z.shiftl 1 9) =? 0 then ret tt
  else call_int "printf" [VStr "SSE2 supported\n"] ;; ret tt.

(** One pass through the body of the loop of [sse2_matrix_multiply]. *)
Definition sse2_matrix_multiply_body (A B C : ptr) (i : Z) : M unit :=
  a <- _mm_load_ps (float_elem A i) ;;
  b <- _mm_load_ps (float_elem B i) ;;
  let result := _mm_mul_ps a b in
  _mm_store_ps (float_elem C i) result.

(** [for (...; i < n; i += 4) body]. Every pass but the last adds 4 to
    [i], so [n] passes are more than the loop can take from [i = 0]. *)
Fixpoint sse2_matrix_multiply_loop (fuel : nat) (A B C : ptr) (n i : Z)
  : M unit :=
  if i <? n then
    match fuel with
    | O => fail OutOfFuel
    | S fuel' =>
      sse2_matrix_multiply_body A B C i ;;
      i' <- int_add i 4 ;;
      sse2_matrix_multiply_loop fuel' A B C n i'
    end
  else ret tt.

Definition sse2_matrix_multiply (A B C : ptr) (n : Z) : M unit :=
  sse2_matrix_multiply_loop (Z.to_nat n) A B C n 0.

(** One pass through the body of the loop of [avx2_vector_add]. The
    store goes to [&result], the parameter itself, not to the array. *)
Definition avx2_vector_add_body (a b result : ptr) (i : Z) : M unit :=
  va <- _mm256_load_ps (float_elem a i) ;;
  vb <- _mm256_load_ps (float_elem b i) ;;
  let vr := _mm256_add_ps va vb in
  _mm256_store_ps (Ptr (Auto "result") 0) vr.

Fixpoint avx2_vector_add_loop (fuel : nat) (a b result : ptr) (n i : Z)
  : M unit :=
  if i <? n then
    match fuel with
    | O => fail OutOfFuel
    | S fuel' =>
      avx2_vector_add_body a b result i ;;
      i' <- int_add i 8 ;;
      avx2_vector_add_loop fuel' a b result n i'
    end
  else ret tt.

Definition avx2_vector_add (a b result : ptr) (n : Z) : M unit :=
  avx2_vector_add_loop (Z.to_nat n) a b result n 0.

Definition get_cycles_x86 : M Z :=
  regs <- asm "rdtsc" [] ;;
  let lo := u32 (regs EAX) in
  let hi := u32 (regs EDX) in
  ret (or64 (shl64 (u64 hi) 32) (u64 lo)).

Definition old_openssl_init : M unit :=
  call_int "SSL_library_init" [] ;;
  call_void "SSL_load_error_strings" [] ;;
  call_void "OpenSSL_add_all_algorithms" [].

Definition write_callback (contents : ptr) (size nmemb : Z) (userp : ptr)
  : M Z :=
  ret (mul64 size nmemb).

(** A pointer used as a condition: true unless it is the null pointer. *)
Definition non_null (p : ptr) : bool :=
  match p_base p with
  | Null => negb (p_ofs p =? 0)
  | _ => true
  end.

Definition old_curl_request : M unit :=
  curl <- call_ptr "curl_easy_init" [] ;;
  if non_null curl then
    call_int "curl_easy_setopt"
      [VPtr curl; VSym "CURLOPT_URL"; VStr "https://example.com"] ;;
    call_int "curl_easy_setopt"
      [VPtr curl; VSym "CURLOPT_SSLVERSION";
       VSym "CURL_SSLVERSION_TLSv1"] ;;
    call_int "curl_easy_setopt"
      [VPtr curl; VSym "CURLOPT_WRITEFUNCTION"; VFun "write_callback"] ;;
    call_int "curl_easy_perform" [VPtr curl] ;;
    call_void "curl_easy_cleanup" [VPtr curl]
  else ret tt.

Definition compress_old_zlib (input : ptr) (input_len : Z)
    (output output_len : ptr) : M unit :=
  call_int "compress"
    [VPtr output; VPtr output_len; VPtr input; VInt input_len] ;;
  ret tt.

Definition old_ncurses_interface : M unit :=
  call_ptr "initscr" [] ;;
  call_int "start_color" [] ;;
  call_int "init_pair" [VInt 1; VSym "COLOR_GREEN"; VSym "COLOR_BLACK"] ;;
  pair <- call_int "COLOR_PAIR" [VInt 1] ;;
  call_int "attron" [VInt (s32 pair)] ;;
  call_int "printw" [VStr "Old ncurses interface"] ;;
  call_int "refresh" [] ;;
  call_int "getch" [] ;;
  call_int "endwin" [] ;;
  ret tt.

(** [addr] and [len] are automatic objects handed to the library by
    address; [len] starts as [sizeof(addr)]. *)
Definition create_old_socket : M Z :=
  fd <- call_int "socket" [VSym "AF_INET"; VSym "SOCK_STREAM"; VInt 0] ;;
  let sockfd := s32 fd in
  (if 0 <=? sockfd then
     call_int "getsockname"
       [VInt sockfd; VPtr (Ptr (Auto "addr") 0); VPtr (Ptr (Auto "len") 0)] ;;
     ret tt
   else ret tt) ;;
  ret sockfd.

Definition x86_fpu_test : M unit :=
  let a := Ptr (Auto "a") 0 in
  let b := Ptr (Auto "b") 0 in
  asm "fld %1\nfld %2\nfaddp\nfstp %0"
    [OMemOut a; OMemIn a (VDbl "1.0"); OMemIn b (VDbl "2.0")] ;;
  ret tt.

Definition x86_bmi2_popcnt (x : Z) : Z :=
  _pdep_u64 x 0xAAAAAAAAAAAAAAAA.

Definition old_timing : M unit :=
  call_int "gettimeofday" [VPtr (Ptr (Auto "tv") 0); VPtr NULL] ;;
  ret tt.

Definition main : M Z :=
  call_int "printf" [VStr "Graviton Migration Test - High Complexity\n"] ;;
  x86_cpuid_test ;;
  sse2_matrix_multiply NULL NULL NULL 16 ;;
  avx2_vector_add NULL NULL NULL 32 ;;
  cycles <- get_cycles_x86 ;;
  call_int "printf" [VStr "Cycles: %llu\n"; VInt cycles] ;;
  old_openssl_init ;;
  old_curl_request ;;
  compress_old_zlib NULL 0 NULL NULL ;;
  old_ncurses_interface ;;
  create_old_socket ;;
  x86_fpu_test ;;
  old_timing ;;
  call_int "printf" [VStr "This file has 47+ migration issues!\n"] ;;
  ret 0.

End Program.

Section ByteProgram.
Context {T0 : Target}.

(** One pass through the body of the loop of [sse_crypto_hash]. *)
Definition sse_crypto_hash_body (data : ptr) (i state : Z)
  : @M (byte_target T0) Z :=
  block <- _mm_loadu_si128 (byte_elem data i) ;;
  ret (_mm_xor_si128 state block).

Fixpoint sse_crypto_hash_loop (fuel : nat) (data : ptr) (len i state : Z)
  : @M (byte_target T0) unit :=
  if i <? len then
    match fuel with
    | O => fail OutOfFuel
    | S fuel' =>
      state' <- sse_crypto_hash_body data i state ;;
      i' <- int_add i 16 ;;
      sse_crypto_hash_loop fuel' data len i' state'
    end
  else ret tt.

(** The hash state is a local that nothing reads after the loop. *)
Definition sse_crypto_hash (data : ptr) (len : Z)
  : @M (byte_target T0) unit :=
  sse_crypto_hash_loop (Z.to_nat len) data len 0 _mm_setzero_si128.

End ByteProgram.
End GravitonProblematic.

(** ** x86_specific.c *)

Module X86Specific.
Section Program.
Context `{X : Externals}.

Definition rdtsc : M Z :=
  regs <- asm "rdtsc" [] ;;
  let low := u32 (regs EAX) in
  let high := u32 (regs EDX) in
  ret (or64 (shl64 (u64 high) 32) (u64 low)).

Definition read_pmc (counter : Z) : M Z :=
  regs <- asm "rdpmc" [OReg ECX (u32 counter)] ;;
  let low := u32 (regs EAX) in
  let high := u32 (regs EDX) in
  ret (or64 (shl64 (u64 high) 32) (u64 low)).

End Program.

Section ByteProgram.
Context {T0 : Target} {X : @Externals (byte_target T0)}.

Definition get_cpu_vendor (vendor : ptr) : @M (byte_target T0) unit :=
  regs <- asm "cpuid" [OReg EAX 0] ;;
  let ebx := u32 (regs EBX) in
  let ecx := u32 (regs ECX) in
  let edx := u32 (regs EDX) in
  store_u32 vendor ebx ;;
  store_u32 (byte_elem vendor 4) edx ;;
  store_u32 (byte_elem vendor 8) ecx ;;
  store_char (byte_elem vendor 12) 0.

(** The two outputs of the [asm] statement are stored [*low] first. *)
Definition read_msr (msr : Z) (low high : ptr) : @M (byte_target T0) unit :=
  regs <- asm "rdmsr" [OReg ECX (u32 msr)] ;;
  store_u32 low (regs EAX) ;;
  store_u32 high (regs EDX).

End ByteProgram.
End X86Specific.

(** ** A reference environment

    Integers stand for floats, the environment is the time-stamp
    counter, [rdtsc] and [rdpmc] split the counter into [edx:eax] (and
    [rdtsc] advances it), and zlib's [compress] reads [*destLen] before
    anything else. Every other instruction leaves zeros in the
    registers and every other library call returns zero. *)

Definition ref_target : Target :=
  {| F := Z; mul_ss := Z.mul; add_ss := Z.add; E := Z |}.

Definition ref_regs (tsc : Z) (r : reg) : Z :=
  match r with
  | EAX => tsc mod 2 ^ 32
  | EDX => (tsc / 2 ^ 32) mod 2 ^ 32
  | _ => 0
  end.

Definition ref_asm (insn : string) (ops : list operand)
  : @M ref_target (reg -> Z) := fun w =>
  if String.eqb insn "rdtsc"
  then Ok (ref_regs (w_env w), @World ref_target (w_mem w) (w_env w + 1))
  else if String.eqb insn "rdpmc" then Ok (ref_regs (w_env w), w)
  else Ok (fun _ => 0, w).

Definition ref_call_int (name : string) (args : list value)
  : @M ref_target Z :=
  match name, args with
  | "compress", [_; VPtr destLen; _; _] =>
    match p_base destLen with
    | Null => fail NullDeref
    | _ => ret 0
    end
  | _, _ => ret 0
  end.

Definition ref_externals : @Externals ref_target :=
  {| asm := ref_asm;
     call_void := fun _ _ => ret tt;
     call_int := ref_call_int;
     call_ptr := fun _ _ => ret NULL |}.

(** Three arrays of eight floats at 32-byte aligned addresses. *)
Definition ref_world : @world ref_target :=
  let arr := @FArray ref_target in
  @World ref_target
    (<[0%nat := arr 4096 [1; 2; 3; 4; 5; 6; 7; 8]]>
       (<[1%nat := arr 8192 [10; 20; 30; 40; 50; 60; 70; 80]]>
          (<[2%nat := arr 12288 [0; 0; 0; 0; 0; 0; 0; 0]]> ∅)))
    (5 * 2 ^ 32 + 7).

(** The same environment with byte objects: a 13-byte [vendor] buffer,
    two [uint32_t] cells and 32 bytes of [data], and a [cpuid] whose
    leaf 0 names the vendor as Intel processors do. *)
Definition ref_byte_target : Target := byte_target ref_target.

Definition ref_cpuid (r : reg) : Z :=
  match r with
  | EAX => 22
  | EBX => 0x756e6547
  | EDX => 0x49656e69
  | ECX => 0x6c65746e
  end.

Definition ref_byte_asm (insn : string) (ops : list operand)
  : @M ref_byte_target (reg -> Z) := fun w =>
  if String.eqb insn "cpuid" then Ok (ref_cpuid, w)
  else if String.eqb insn "rdmsr" then Ok (ref_regs (snd (w_env w)), w)
  else Ok (fun _ => 0, w).

Definition ref_byte_externals : @Externals ref_byte_target :=
  {| asm := ref_byte_asm;
     call_void := fun _ _ => ret tt;
     call_int := fun _ _ => ret 0;
     call_ptr := fun _ _ => ret NULL |}.

Definition ref_byte_world : @world ref_byte_target :=
  @World ref_byte_target ∅
    (<["vendor" := [1; 2; 3; 4; 5; 6; 7; 8; 9; 10; 11; 12; 13]]>
       (<["low" := [0; 0; 0; 0]]>
          (<["high" := [0; 0; 0; 0]]>
             (<["data" := replicate 32 170]> ∅))),
     5 * 2 ^ 32 + 7).

(** The value a computation returns, when it returns. *)
Definition returned `{T : Target} {A} (o : outcome (A * world)) : option A :=
  match o with
  | Ok (a, _) => Some a
  | Fault _ => None
  end.

(** ** Vocabulary of the statements *)

(** The three ways a vector access can fail. *)
Definition access_fault (f : fault) : Prop :=
  f = NullDeref \/ f = InvalidAccess \/ f = Misaligned.

(** The number of set bits among the [d] bits of [mask] from bit [m]
    up. *)
Fixpoint rank (mask m : Z) (d : nat) : Z :=
  match d with
  | O => 0
  | S d' => Z.b2z (Z.testbit mask m) + rank mask (m + 1) d'
  end.

(** The bytes [obj] with those from index [k] on overwritten by [bs]. *)
Definition splice (obj : list Z) (k : nat) (bs : list Z) : list Z :=
  take k obj ++ bs ++ drop (k + length bs) obj.

(** The thirteen bytes [get_cpu_vendor] makes of the registers of
    [cpuid]: [ebx], [edx], [ecx] in that order, low byte first, and a
    terminating zero. *)
Definition vendor_bytes (regs : reg -> Z) : list Z :=
  le32 (u32 (regs EBX)) ++ le32 (u32 (regs EDX)) ++ le32 (u32 (regs ECX))
  ++ [0].

(** [n] rounded up to a multiple of sixteen: the bytes a call of
    [sse_crypto_hash] with length [n] reads. *)
Definition round_up16 (n : Z) : Z := 16 * ((n + 15) / 16).

(** [n] rounded up to a multiple of four: the floats a call of
    [sse2_matrix_multiply] with length [n] reaches. *)
Definition round_up4 (n : Z) : Z := 4 * ((n + 3) / 4).

(** The index of the float a pointer into a float array points at. *)
Definition first_elem (p : ptr) : nat := Z.to_nat (p_ofs p / 4).

(** [p] points at a 16-byte aligned float of the array [a] in block
    [b], and [a] has at least [len] floats from there on. *)
Definition holds_floats `{T : Target}
    (w : world) (p : ptr) (b : nat) (a : farray) (len : Z) : Prop :=
  p_base p = Block b /\ w_mem w !! b = Some a
  /\ 0 <= p_ofs p /\ p_ofs p mod 4 = 0
  /\ (fa_addr a + p_ofs p) mod 16 = 0
  /\ p_ofs p / 4 + len <= Z.of_nat (length (fa_data a)).

(** [p] points at a 16-byte aligned float of some array with at least
    [len] floats from there on. *)
Definition room `{T : Target} (w : world) (p : ptr) (len : Z) : Prop :=
  exists b a, holds_floats w p b a len.

(** Where the array in block [b] starts and how many floats it has. *)
Definition shape `{T : Target} (w : world) (b : nat) : option (Z * nat) :=
  match w_mem w !! b with
  | Some a => Some (fa_addr a, length (fa_data a))
  | None => None
  end.

(** The world [w] with the array in block [b] replaced. *)
Definition with_array `{T : Target}
    (w : world) (b : nat) (addr : Z) (data : list F) : world :=
  World (<[b := FArray addr data]> (w_mem w)) (w_env w).

(** The array [dC] with [j] elements from index [kC] on replaced by
    [f] applied, element by element, to the [j] elements of [dA] from
    [kA] on and the [j] elements of [dB] from [kB] on. *)
Definition lanewise {A} (f : A -> A -> A)
    (kA kB kC j : nat) (dA dB dC : list A) : list A :=
  take kC dC ++ zip_with f (take j (drop kA dA)) (take j (drop kB dB))
  ++ drop (kC + j) dC.

(** * Properties *)

Import GravitonProblematic X86Specific.

(** ** The monad *)

Section MonadFacts.
Context `{T : Target}.

Lemma bind_ok {A B} (c : M A) (k : A -> M B) w a w' :
  c w = Ok (a, w') -> bind c k w = k a w'.
Proof. intros Hc. unfold bind. now rewrite Hc. Qed.

Lemma bind_fault {A B} (c : M A) (k : A -> M B) w f :
  c w = Fault f -> bind c k w = Fault f.
Proof. intros Hc. unfold bind. now rewrite Hc. Qed.

(** A computation that returns normally after [c] has seen [c] return
    normally. *)
Lemma bind_ok_inv {A B} (c : M A) (k : A -> M B) w b w'' :
  bind c k w = Ok (b, w'') ->
  exists a w', c w = Ok (a, w') /\ k a w' = Ok (b, w'').
Proof.
  unfold bind. destruct (c w) as [[a w'] | f]; [eauto | discriminate].
Qed.

Lemma bounded_ret {A} (a : A) : bounded (ret a).
Proof. intros w. discriminate. Qed.

Lemma bounded_bind {A B} (c : M A) (k : A -> M B) :
  bounded c -> (forall a, bounded (k a)) -> bounded (bind c k).
Proof.
  intros Hc Hk w. unfold bind.
  destruct (c w) as [[a w'] | f] eqn:Hcw.
  - apply Hk.
  - intros Hf. apply (Hc w). congruence.
Qed.

Lemma bounded_resolve lanes p : bounded (resolve lanes p).
Proof.
  intros w. unfold resolve.
  destruct (p_base p); try discriminate.
  destruct (w_mem w !! b); try discriminate.
  destruct (in_bounds _ _ _); try discriminate.
  destruct (aligned _ _ _); discriminate.
Qed.

Lemma bounded_vec_load lanes p : bounded (vec_load lanes p).
Proof.
  apply bounded_bind; [apply bounded_resolve | intros; apply bounded_ret].
Qed.

Lemma bounded_vec_store lanes p v : bounded (vec_store lanes p v).
Proof.
  apply bounded_bind; [apply bounded_resolve | intros s w; discriminate].
Qed.

Lemma bounded_int_add x y : bounded (int_add x y).
Proof. intros w. unfold int_add. destruct (_ && _); discriminate. Qed.

Lemma int_add_ok x y w r w' : int_add x y w = Ok (r, w') -> r = x + y.
Proof.
  unfold int_add. destruct (_ && _); [| discriminate].
  unfold ret. congruence.
Qed.

(** An access through a pointer derived from NULL faults, whatever the
    offset and whatever memory holds. *)
Lemma resolve_null lanes p w :
  p_base p = Null -> resolve lanes p w = Fault NullDeref.
Proof. intros Hp. unfold resolve. now rewrite Hp. Qed.

Lemma vec_load_null lanes p w :
  p_base p = Null -> vec_load lanes p w = Fault NullDeref.
Proof. intros Hp. apply bind_fault, resolve_null, Hp. Qed.

End MonadFacts.

(** ** The vector loops *)

Section Loops.
Context `{T : Target}.

Lemma bounded_sse2_body A B C i : bounded (sse2_matrix_multiply_body A B C i).
Proof.
  unfold sse2_matrix_multiply_body.
  apply bounded_bind; [apply bounded_vec_load | intros a].
  apply bounded_bind; [apply bounded_vec_load | intros b].
  apply bounded_vec_store.
Qed.

Lemma bounded_avx2_body a b r i : bounded (avx2_vector_add_body a b r i).
Proof.
  unfold avx2_vector_add_body.
  apply bounded_bind; [apply bounded_vec_load | intros va].
  apply bounded_bind; [apply bounded_vec_load | intros vb].
  apply bounded_vec_store.
Qed.

(** The loop bound is never what stops [sse2_matrix_multiply]: the
    function returns or faults as the C loop does. *)
Lemma bounded_sse2_loop fuel A B C n i :
  n - i <= Z.of_nat fuel -> bounded (sse2_matrix_multiply_loop fuel A B C n i).
Proof.
  revert i. induction fuel as [| fuel IH]; intros i Hfuel; simpl.
  - destruct (i <? n) eqn:Hlt; [lia | apply bounded_ret].
  - destruct (i <? n) eqn:Hlt; [| apply bounded_ret].
    apply bounded_bind; [apply bounded_sse2_body | intros _].
    intros w. unfold bind.
    destruct (int_add i 4 w) as [[i' w'] | f] eqn:Hadd.
    + apply int_add_ok in Hadd. subst i'. apply IH. lia.
    + intros Hf. apply (bounded_int_add i 4 w). congruence.
Qed.

Lemma bounded_sse2_matrix_multiply A B C n :
  bounded (sse2_matrix_multiply A B C n).
Proof. apply bounded_sse2_loop. lia. Qed.

Lemma bounded_avx2_loop fuel a b r n i :
  n - i <= Z.of_nat fuel -> bounded (avx2_vector_add_loop fuel a b r n i).
Proof.
  revert i. induction fuel as [| fuel IH]; intros i Hfuel; simpl.
  - destruct (i <? n) eqn:Hlt; [lia | apply bounded_ret].
  - destruct (i <? n) eqn:Hlt; [| apply bounded_ret].
    apply bounded_bind; [apply bounded_avx2_body | intros _].
    intros w. unfold bind.
    destruct (int_add i 8 w) as [[i' w'] | f] eqn:Hadd.
    + apply int_add_ok in Hadd. subst i'. apply IH. lia.
    + intros Hf. apply (bounded_int_add i 8 w). congruence.
Qed.

Lemma bounded_avx2_vector_add a b r n : bounded (avx2_vector_add a b r n).
Proof. apply bounded_avx2_loop. lia. Qed.

(** With [A] derived from NULL the first load of a pass faults, for
    every index and every memory. *)
Lemma sse2_body_null A B C i w :
  p_base A = Null -> sse2_matrix_multiply_body A B C i w = Fault NullDeref.
Proof. intros HA. apply bind_fault, vec_load_null, HA. Qed.

Lemma avx2_body_null a b r i w :
  p_base a = Null -> avx2_vector_add_body a b r i w = Fault NullDeref.
Proof. intros Ha. apply bind_fault, vec_load_null, Ha. Qed.

(** So does the whole call as soon as the loop is entered. *)
Lemma sse2_matrix_multiply_null A B C n w :
  p_base A = Null -> 0 < n ->
  sse2_matrix_multiply A B C n w = Fault NullDeref.
Proof.
  intros HA Hn. unfold sse2_matrix_multiply.
  destruct (Z.to_nat n) as [| fuel] eqn:Hfuel; [lia |].
  simpl. replace (0 <? n) with true by lia.
  apply bind_fault, sse2_body_null, HA.
Qed.

Lemma avx2_vector_add_null a b r n w :
  p_base a = Null -> 0 < n ->
  avx2_vector_add a b r n w = Fault NullDeref.
Proof.
  intros Ha Hn. unfold avx2_vector_add.
  destruct (Z.to_nat n) as [| fuel] eqn:Hfuel; [lia |].
  simpl. replace (0 <? n) with true by lia.
  apply bind_fault, avx2_body_null, Ha.
Qed.

(** With no positive length the loop is not entered and nothing is
    touched, NULL or not. *)
Lemma sse2_matrix_multiply_empty A B C n w :
  n <= 0 -> sse2_matrix_multiply A B C n w = Ok (tt, w).
Proof.
  intros Hn. unfold sse2_matrix_multiply.
  replace (Z.to_nat n) with O by lia. simpl.
  now replace (0 <? n) with false by lia.
Qed.

End Loops.

(** On real arrays the loop multiplies lane by lane. *)
Example sse2_matrix_multiply_arrays :
  match
    @sse2_matrix_multiply ref_target
      (Ptr (Block 0) 0) (Ptr (Block 1) 0) (Ptr (Block 2) 0) 8 ref_world
  with
  | Ok (_, w) => @array_at ref_target w 2
  | Fault _ => None
  end = Some [10; 40; 90; 160; 250; 360; 490; 640].
Proof. vm_compute. reflexivity. Qed.

(** [avx2_vector_add] stores eight floats over its own parameter, so
    with arrays in hand it faults at the first store. *)
Example avx2_vector_add_arrays :
  @avx2_vector_add ref_target
    (Ptr (Block 0) 0) (Ptr (Block 1) 0) (Ptr (Block 2) 0) 8 ref_world
  = Fault InvalidAccess.
Proof. vm_compute. reflexivity. Qed.

(** ** Combining the halves of a 64-bit counter *)

Lemma shifted_half_disjoint lo hi :
  is_u32 lo -> Z.land (Z.shiftl hi 32) lo = 0.
Proof.
  intros Hlo. apply Z.bits_inj'. intros k Hk.
  rewrite Z.land_spec, Z.bits_0.
  destruct (Z.lt_ge_cases k 32) as [Hlow | Hhigh].
  - rewrite Z.shiftl_spec_low by assumption. reflexivity.
  - rewrite <- (Z.mod_small lo (2 ^ 32)) by exact Hlo.
    rewrite Z.mod_pow2_bits_high by lia. apply andb_false_r.
Qed.

Lemma lor_halves lo hi :
  is_u32 lo -> Z.lor (Z.shiftl hi 32) lo = hi * 2 ^ 32 + lo.
Proof.
  intros Hlo. rewrite <- Z.shiftl_mul_pow2 by lia.
  rewrite <- Z.lxor_lor by now apply shifted_half_disjoint.
  symmetry. apply Z.add_nocarry_lxor. now apply shifted_half_disjoint.
Qed.

(** The casts and the 64-bit shift of the C expression lose nothing
    when both halves are 32-bit values. *)
Lemma combine_halves lo hi :
  is_u32 lo -> is_u32 hi ->
  or64 (shl64 (u64 (u32 hi)) 32) (u64 (u32 lo)) = Z.lor (Z.shiftl hi 32) lo.
Proof.
  unfold is_u32, or64, shl64, u64, u32. intros Hlo Hhi.
  rewrite (Z.mod_small hi (2 ^ 32)), (Z.mod_small lo (2 ^ 32)) by assumption.
  rewrite (Z.mod_small hi (2 ^ 64)), (Z.mod_small lo (2 ^ 64)) by lia.
  rewrite Z.mod_small; [reflexivity |].
  rewrite Z.shiftl_mul_pow2 by lia. lia.
Qed.

(** ** The claims *)

(** C1. [main] of graviton_problematic.c hands NULL buffers to
    [sse2_matrix_multiply] (length 16), to [avx2_vector_add] (length 32)
    and to [compress_old_zlib] (length 0). With those arguments every
    pass through the body of the loop of [sse2_matrix_multiply], at any
    index and over any memory, faults on a pointer derived from NULL;
    the two vector calls end in that fault, [compress_old_zlib] ends in
    whatever fault zlib raises on its NULL arguments, and [main] itself
    never returns normally: once its first [printf] and
    [x86_cpuid_test] have returned, it stops in the NULL fault of
    [sse2_matrix_multiply]. *)
Theorem main_passes_null_buffers `{X : Externals} :
  (forall i w,
     sse2_matrix_multiply_body NULL NULL NULL i w = Fault NullDeref)
  /\ (forall w, sse2_matrix_multiply NULL NULL NULL 16 w = Fault NullDeref)
  /\ (forall w, avx2_vector_add NULL NULL NULL 32 w = Fault NullDeref)
  /\ (forall w f,
        call_int "compress" [VPtr NULL; VPtr NULL; VPtr NULL; VInt 0] w
          = Fault f ->
        compress_old_zlib NULL 0 NULL NULL w = Fault f)
  /\ (forall w n w1 w2,
        call_int "printf"
          [VStr "Graviton Migration Test - High Complexity\n"] w
          = Ok (n, w1) ->
        x86_cpuid_test w1 = Ok (tt, w2) ->
        main w = Fault NullDeref)
  /\ (forall w r w', main w <> Ok (r, w')).
Proof.
  repeat apply conj.
  - intros i w. now apply sse2_body_null.
  - intros w. apply sse2_matrix_multiply_null; [reflexivity | lia].
  - intros w. apply avx2_vector_add_null; [reflexivity | lia].
  - intros w f Hz. unfold compress_old_zlib. now apply bind_fault.
  - intros w n w1 w2 Hprintf Hcpuid. unfold main.
    rewrite (bind_ok _ _ _ _ _ Hprintf), (bind_ok _ _ _ _ _ Hcpuid).
    apply bind_fault, sse2_matrix_multiply_null; [reflexivity | lia].
  - intros w r w' Hmain. unfold main in Hmain.
    apply bind_ok_inv in Hmain as (n & w1 & _ & Hmain).
    apply bind_ok_inv in Hmain as (u & w2 & _ & Hmain).
    apply bind_ok_inv in Hmain as (u' & w3 & Hsse2 & _).
    rewrite sse2_matrix_multiply_null in Hsse2; [| reflexivity | lia].
    discriminate.
Qed.

Lemma main_passes_null_buffers_witness :
  @main ref_target ref_externals ref_world = Fault NullDeref
  /\ @compress_old_zlib ref_target ref_externals NULL 0 NULL NULL ref_world
     = Fault NullDeref.
Proof.
  destruct (@main_passes_null_buffers ref_target ref_externals)
    as (_ & _ & _ & Hzlib & Hmain & _).
  split.
  - apply (Hmain ref_world 0 ref_world ref_world); reflexivity.
  - apply Hzlib. reflexivity.
Defined.

(** C9. [get_cycles_x86] and [rdtsc] are the same function of what the
    time-stamp instruction leaves in [eax] and [edx]: for 32-bit halves
    [lo] and [hi] both return [(hi << 32) | lo], which is
    [hi * 2^32 + lo], and they agree on every outcome of the
    instruction; [read_pmc] combines the halves of its counter in the
    same way. *)
Theorem counter_halves_combined_alike `{X : Externals}
    (lo hi counter : Z) (regs : reg -> Z) (w1 w1' w2 w2' : world) :
  is_u32 lo -> is_u32 hi ->
  regs EAX = lo -> regs EDX = hi ->
  asm "rdtsc" [] w1 = Ok (regs, w1') ->
  asm "rdpmc" [OReg ECX (u32 counter)] w2 = Ok (regs, w2') ->
  get_cycles_x86 w1 = Ok (Z.lor (Z.shiftl hi 32) lo, w1')
  /\ rdtsc w1 = Ok (Z.lor (Z.shiftl hi 32) lo, w1')
  /\ read_pmc counter w2 = Ok (Z.lor (Z.shiftl hi 32) lo, w2')
  /\ Z.lor (Z.shiftl hi 32) lo = hi * 2 ^ 32 + lo
  /\ (forall w, get_cycles_x86 w = rdtsc w).
Proof.
  intros Hlo Hhi Ha Hd Htsc Hpmc.
  pose proof (combine_halves lo hi Hlo Hhi) as Hcomb.
  repeat apply conj.
  - unfold get_cycles_x86. rewrite (bind_ok _ _ _ _ _ Htsc).
    unfold ret. now rewrite Ha, Hd, Hcomb.
  - unfold rdtsc. rewrite (bind_ok _ _ _ _ _ Htsc).
    unfold ret. now rewrite Ha, Hd, Hcomb.
  - unfold read_pmc. rewrite (bind_ok _ _ _ _ _ Hpmc).
    unfold ret. now rewrite Ha, Hd, Hcomb.
  - now apply lor_halves.
  - reflexivity.
Qed.

Lemma counter_halves_combined_alike_witness :
  @get_cycles_x86 ref_target ref_externals ref_world
    = Ok (Z.lor (Z.shiftl 5 32) 7, @World ref_target (w_mem ref_world) (5 * 2 ^ 32 + 8))
  /\ @rdtsc ref_target ref_externals ref_world
    = Ok (Z.lor (Z.shiftl 5 32) 7, @World ref_target (w_mem ref_world) (5 * 2 ^ 32 + 8))
  /\ @read_pmc ref_target ref_externals 0 ref_world
    = Ok (Z.lor (Z.shiftl 5 32) 7, ref_world)
  /\ Z.lor (Z.shiftl 5 32) 7 = 5 * 2 ^ 32 + 7
  /\ (forall w, @get_cycles_x86 ref_target ref_externals w
                = @rdtsc ref_target ref_externals w).
Proof.
  apply (@counter_halves_combined_alike ref_target ref_externals
           7 5 0 (ref_regs (5 * 2 ^ 32 + 7))).
  - unfold is_u32. lia.
  - unfold is_u32. lia.
  - reflexivity.
  - reflexivity.
  - reflexivity.
  - reflexivity.
Defined.

(** C10. [write_callback] returns [size * nmemb] reduced modulo [2^64]
    for every [size] and [nmemb]; it returns it for every [contents]
    and [userp], NULL or dangling, over every memory, and leaves the
    world as it found it: the buffer is never looked at. *)
Theorem write_callback_is_wrapped_product `{T : Target}
    (contents userp : ptr) (size nmemb : Z) (w : world) :
  write_callback contents size nmemb userp w
    = Ok ((size * nmemb) mod 2 ^ 64, w)
  /\ (forall contents' userp' w',
        returned (write_callback contents' size nmemb userp' w')
        = returned (write_callback contents size nmemb userp w)).
Proof. split; reflexivity. Qed.

(** The product wraps: [2^63 * 2] is [0] at [size_t]. *)
Example write_callback_wraps :
  returned (@write_callback ref_target NULL (2 ^ 63) 2 NULL ref_world)
  = Some 0.
Proof. reflexivity. Qed.

(** * Further properties of the code *)

(** ** Vector accesses that succeed *)

Section Accesses.
Context `{T : Target}.

Lemma resolve_ok_inv lanes p w s w' :
  resolve lanes p w = Ok (s, w') ->
  w' = w
  /\ p_base p = Block (s_block s)
  /\ w_mem w !! s_block s = Some (s_array s)
  /\ in_bounds (s_array s) (p_ofs p) lanes = true
  /\ aligned (s_array s) (p_ofs p) lanes = true
  /\ s_index s = Z.to_nat (p_ofs p / 4).
Proof.
  unfold resolve. destruct (p_base p) as [| b | name]; try discriminate.
  destruct (w_mem w !! b) as [a |] eqn:Hb; try discriminate.
  destruct (in_bounds a (p_ofs p) lanes) eqn:Hin; try discriminate.
  destruct (aligned a (p_ofs p) lanes) eqn:Hal; try discriminate.
  intros [= <- <-]. simpl. repeat split; auto.
Qed.

Lemma resolve_ok lanes b ofs w a :
  w_mem w !! b = Some a ->
  in_bounds a ofs lanes = true -> aligned a ofs lanes = true ->
  resolve lanes (Ptr (Block b) ofs) w = Ok (Slot b a (Z.to_nat (ofs / 4)), w).
Proof. intros Hb Hin Hal. unfold resolve. simpl. now rewrite Hb, Hin, Hal. Qed.

Lemma resolve_fault lanes p w f :
  resolve lanes p w = Fault f -> access_fault f.
Proof.
  unfold resolve, access_fault.
  destruct (p_base p) as [| b | name]; [intros [= <-]; auto | | intros [= <-]; auto].
  destruct (w_mem w !! b); [| intros [= <-]; auto].
  destruct (in_bounds _ _ _); [| intros [= <-]; auto].
  destruct (aligned _ _ _); [discriminate | intros [= <-]; auto].
Qed.

Lemma vec_load_fault lanes p w f :
  vec_load lanes p w = Fault f -> access_fault f.
Proof.
  unfold vec_load, bind.
  destruct (resolve lanes p w) as [[s w'] | f'] eqn:Hr; [discriminate |].
  intros [= <-]. eapply resolve_fault, Hr.
Qed.

Lemma vec_load_ok_inv lanes p w v w' :
  vec_load lanes p w = Ok (v, w') ->
  w' = w /\ exists s, resolve lanes p w = Ok (s, w)
    /\ v = take lanes (drop (s_index s) (fa_data (s_array s))).
Proof.
  unfold vec_load, bind.
  destruct (resolve lanes p w) as [[s w1] | f] eqn:Hr; [| discriminate].
  destruct (resolve_ok_inv _ _ _ _ _ Hr) as [-> _].
  intros [= <- <-]. eauto.
Qed.

Lemma vec_store_ok_inv lanes p v w w' :
  vec_store lanes p v w = Ok (tt, w') ->
  exists s, resolve lanes p w = Ok (s, w)
    /\ w' = World
         (<[s_block s :=
              FArray (fa_addr (s_array s))
                (take (s_index s) (fa_data (s_array s)) ++ v
                 ++ drop (s_index s + lanes) (fa_data (s_array s)))]>
            (w_mem w))
         (w_env w).
Proof.
  unfold vec_store, bind.
  destruct (resolve lanes p w) as [[s w1] | f] eqn:Hr; [| discriminate].
  destruct (resolve_ok_inv _ _ _ _ _ Hr) as [-> _].
  intros [= <-]. eauto.
Qed.

(** A vector store through the address of an automatic object fails. *)
Lemma vec_store_auto lanes name ofs v w :
  vec_store lanes (Ptr (Auto name) ofs) v w = Fault InvalidAccess.
Proof. reflexivity. Qed.

End Accesses.

(** ** Lengths that enter no loop, and the store of [avx2_vector_add] *)

Section EdgeCases.
Context `{T : Target}.

Lemma avx2_vector_add_empty a b r n w :
  n <= 0 -> avx2_vector_add a b r n w = Ok (tt, w).
Proof.
  intros Hn. unfold avx2_vector_add.
  replace (Z.to_nat n) with O by lia. simpl.
  now replace (0 <? n) with false by lia.
Qed.

Lemma avx2_body_faults a b r i w :
  exists f, avx2_vector_add_body a b r i w = Fault f /\ access_fault f.
Proof.
  unfold avx2_vector_add_body, bind, _mm256_load_ps, _mm256_store_ps.
  destruct (vec_load 8 (float_elem a i) w) as [[va w1] | f] eqn:Ha.
  - destruct (vec_load 8 (float_elem b i) w1) as [[vb w2] | f] eqn:Hb.
    + rewrite vec_store_auto. exists InvalidAccess.
      unfold access_fault. auto.
    + exists f. split; [reflexivity | eapply vec_load_fault, Hb].
  - exists f. split; [reflexivity | eapply vec_load_fault, Ha].
Qed.

(** X1. A length of zero or less enters neither loop: both vector
    functions return at once and leave the world as it is, whatever the
    three pointers are, NULL included. *)
Theorem vector_loops_skip_empty (A B C : ptr) (n : Z) (w : world) :
  n <= 0 ->
  sse2_matrix_multiply A B C n w = Ok (tt, w)
  /\ avx2_vector_add A B C n w = Ok (tt, w).
Proof.
  intros Hn. split.
  - now apply sse2_matrix_multiply_empty.
  - now apply avx2_vector_add_empty.
Qed.

(** X2. [avx2_vector_add] stores each sum over its own parameter
    ([&result]) instead of into the array, so for a positive length it
    never returns: whatever the three arrays are, the call stops in a
    memory fault during its first pass. *)
Theorem avx2_vector_add_never_returns (a b result : ptr) (n : Z) (w : world) :
  0 < n ->
  exists f, avx2_vector_add a b result n w = Fault f /\ access_fault f.
Proof.
  intros Hn. unfold avx2_vector_add.
  destruct (Z.to_nat n) as [| fuel] eqn:Hfuel; [lia |].
  simpl. replace (0 <? n) with true by lia.
  destruct (avx2_body_faults a b result 0 w) as (f & Hf & Hkind).
  exists f. split; [| exact Hkind]. now apply bind_fault.
Qed.

End EdgeCases.

Lemma vector_loops_skip_empty_witness :
  @sse2_matrix_multiply ref_target NULL NULL NULL 0 ref_world
    = Ok (tt, ref_world)
  /\ @avx2_vector_add ref_target NULL NULL NULL 0 ref_world
    = Ok (tt, ref_world).
Proof. apply (@vector_loops_skip_empty ref_target). lia. Defined.

Lemma avx2_vector_add_never_returns_witness :
  exists f,
    @avx2_vector_add ref_target
      (Ptr (Block 0) 0) (Ptr (Block 1) 0) (Ptr (Block 2) 0) 8 ref_world
    = Fault f /\ access_fault f.
Proof. apply (@avx2_vector_add_never_returns ref_target). lia. Defined.

(** ** Counters and feature bits *)

Lemma halves_split lo hi :
  is_u32 lo -> is_u32 hi ->
  0 <= hi * 2 ^ 32 + lo < 2 ^ 64
  /\ (hi * 2 ^ 32 + lo) mod 2 ^ 32 = lo
  /\ (hi * 2 ^ 32 + lo) / 2 ^ 32 = hi.
Proof.
  unfold is_u32. intros Hlo Hhi. repeat apply conj.
  - lia.
  - lia.
  - rewrite Z.add_comm, Z.mod_add by lia. now apply Z.mod_small.
  - rewrite Z.add_comm, Z.div_add by lia.
    rewrite Z.div_small by assumption. lia.
Qed.

Lemma is_u32_u32 x : is_u32 (u32 x).
Proof. unfold is_u32, u32. apply Z.mod_pos_bound. lia. Qed.

Lemma u32_idem x : u32 (u32 x) = u32 x.
Proof. unfold u32. apply Z.mod_mod. lia. Qed.

(** What the three counter functions make of the registers. *)
Lemma counter_value (regs : reg -> Z) :
  or64 (shl64 (u64 (u32 (regs EDX))) 32) (u64 (u32 (regs EAX)))
  = u32 (regs EDX) * 2 ^ 32 + u32 (regs EAX).
Proof.
  rewrite <- (u32_idem (regs EDX)), <- (u32_idem (regs EAX)).
  rewrite combine_halves by apply is_u32_u32.
  rewrite !u32_idem. apply lor_halves, is_u32_u32.
Qed.

(** X3. Whatever the time-stamp instruction leaves in the registers,
    [rdtsc] and [get_cycles_x86] return a 64-bit value that splits back
    into the two halves: its low 32 bits are those of [eax], its high
    32 bits those of [edx]. Nothing above bit 31 of either register
    reaches the result. *)
Theorem counter_splits_into_halves `{X : Externals}
    (regs : reg -> Z) (w w' : world) :
  asm "rdtsc" [] w = Ok (regs, w') ->
  exists r,
    rdtsc w = Ok (r, w') /\ get_cycles_x86 w = Ok (r, w')
    /\ 0 <= r < 2 ^ 64
    /\ r mod 2 ^ 32 = regs EAX mod 2 ^ 32
    /\ r / 2 ^ 32 = regs EDX mod 2 ^ 32.
Proof.
  intros Htsc. exists (u32 (regs EDX) * 2 ^ 32 + u32 (regs EAX)).
  destruct (halves_split _ _ (is_u32_u32 (regs EAX)) (is_u32_u32 (regs EDX)))
    as (Hrange & Hlow & Hhigh).
  repeat apply conj; try assumption.
  - unfold rdtsc. rewrite (bind_ok _ _ _ _ _ Htsc).
    unfold ret. now rewrite counter_value.
  - unfold get_cycles_x86. rewrite (bind_ok _ _ _ _ _ Htsc).
    unfold ret. now rewrite counter_value.
  - lia.
  - lia.
Qed.

Lemma counter_splits_into_halves_witness :
  exists r,
    @rdtsc ref_target ref_externals ref_world
      = Ok (r, @World ref_target (w_mem ref_world) (5 * 2 ^ 32 + 8))
    /\ @get_cycles_x86 ref_target ref_externals ref_world
      = Ok (r, @World ref_target (w_mem ref_world) (5 * 2 ^ 32 + 8))
    /\ 0 <= r < 2 ^ 64
    /\ r mod 2 ^ 32 = 7 mod 2 ^ 32
    /\ r / 2 ^ 32 = 5 mod 2 ^ 32.
Proof.
  apply (@counter_splits_into_halves ref_target ref_externals
           (ref_regs (5 * 2 ^ 32 + 7))).
  reflexivity.
Defined.

Lemma land_bit_eqb x k :
  0 <= k -> (Z.land x (Z.shiftl 1 k) =? 0) = negb (Z.testbit x k).
Proof.
  intros Hk. destruct (Z.testbit x k) eqn:Hbit; simpl.
  - apply Z.eqb_neq. intros Hz.
    assert (Hk' : Z.testbit (Z.land x (Z.shiftl 1 k)) k = true).
    { rewrite Z.land_spec, Hbit, Z.shiftl_spec by assumption.
      now rewrite Z.sub_diag. }
    rewrite Hz, Z.bits_0 in Hk'. discriminate.
  - apply Z.eqb_eq. apply Z.bits_inj'. intros j Hj.
    rewrite Z.land_spec, Z.bits_0, Z.shiftl_spec by assumption.
    destruct (Z.eq_dec j k) as [-> | Hne].
    + now rewrite Hbit.
    + replace (Z.testbit 1 (j - k)) with false; [apply andb_false_r |].
      symmetry. destruct (Z.lt_ge_cases j k).
      * apply Z.testbit_neg_r. lia.
      * apply (Z.bits_above_log2 1 (j - k)); simpl; lia.
Qed.

(** X4. [x86_cpuid_test] prints its message exactly when bit 9 of the
    [ecx] that [cpuid] leaf 1 returns is set; with the bit clear it
    makes no library call at all. *)
Theorem x86_cpuid_test_prints_on_bit9 `{X : Externals}
    (regs : reg -> Z) (w w1 : world) :
  asm "cpuid" [OReg EAX 1] w = Ok (regs, w1) ->
  x86_cpuid_test w =
    if Z.testbit (regs ECX) 9
    then (call_int "printf" [VStr "SSE2 supported\n"] ;; ret tt) w1
    else Ok (tt, w1).
Proof.
  intros Hcpuid. unfold x86_cpuid_test.
  rewrite (bind_ok _ _ _ _ _ Hcpuid).
  rewrite land_bit_eqb by lia. unfold u32.
  rewrite Z.mod_pow2_bits_low by lia.
  now destruct (Z.testbit (regs ECX) 9).
Qed.

Lemma x86_cpuid_test_prints_on_bit9_witness :
  @x86_cpuid_test ref_target ref_externals ref_world = Ok (tt, ref_world).
Proof.
  apply (@x86_cpuid_test_prints_on_bit9 ref_target ref_externals
           (fun _ => 0) ref_world ref_world).
  reflexivity.
Defined.

(** ** What [sse2_matrix_multiply] computes *)

Section Lanewise.
Context {A : Type} (f : A -> A -> A).

Lemma lanewise_length kA kB kC j (dA dB dC : list A) :
  (kA + j <= length dA)%nat -> (kB + j <= length dB)%nat ->
  (kC + j <= length dC)%nat ->
  length (lanewise f kA kB kC j dA dB dC) = length dC.
Proof.
  intros HA HB HC. unfold lanewise.
  rewrite !length_app, length_zip_with, !length_take, !length_drop. lia.
Qed.

Lemma lanewise_0 kA kB kC (dA dB dC : list A) :
  lanewise f kA kB kC 0 dA dB dC = dC.
Proof.
  unfold lanewise. rewrite !take_0. simpl.
  rewrite Nat.add_0_r. apply take_drop.
Qed.

(** Overwriting the next [k] elements of a partial result with their
    products gives the partial result [k] elements further on. *)
Lemma lanewise_step kA kB kC j k (dA dB dC : list A) :
  (kA + j + k <= length dA)%nat -> (kB + j + k <= length dB)%nat ->
  (kC + j + k <= length dC)%nat ->
  take (kC + j) (lanewise f kA kB kC j dA dB dC)
    ++ zip_with f (take k (drop (kA + j) dA)) (take k (drop (kB + j) dB))
    ++ drop (kC + j + k) (lanewise f kA kB kC j dA dB dC)
  = lanewise f kA kB kC (j + k) dA dB dC.
Proof.
  intros HA HB HC. unfold lanewise.
  set (zj := zip_with f (take j (drop kA dA)) (take j (drop kB dB))).
  assert (Hzj : length zj = j).
  { unfold zj. rewrite length_zip_with, !length_take, !length_drop. lia. }
  assert (HkC : length (take kC dC) = kC) by (rewrite length_take; lia).
  rewrite <- (take_take_drop (drop kA dA) j k).
  rewrite <- (take_take_drop (drop kB dB) j k).
  rewrite zip_with_app by (rewrite !length_take, !length_drop; lia).
  rewrite !drop_drop. fold zj.
  replace (take (kC + j) (take kC dC ++ zj ++ drop (kC + j) dC))
    with (take kC dC ++ zj).
  2:{ rewrite app_assoc. rewrite take_app_length'; [reflexivity |].
      rewrite length_app. lia. }
  replace (drop (kC + j + k) (take kC dC ++ zj ++ drop (kC + j) dC))
    with (drop (kC + (j + k)) dC).
  2:{ rewrite app_assoc.
      replace (kC + j + k)%nat with (length (take kC dC ++ zj) + k)%nat
        by (rewrite length_app; lia).
      rewrite drop_app_add. rewrite drop_drop. f_equal. lia. }
  rewrite <- !app_assoc. reflexivity.
Qed.

End Lanewise.

Section Product.
Context `{T : Target}.

Lemma in_bounds_true (a : farray) ofs lanes :
  in_bounds a ofs lanes = true <->
  0 <= ofs /\ ofs mod 4 = 0
  /\ ofs / 4 + Z.of_nat lanes <= Z.of_nat (length (fa_data a)).
Proof.
  unfold in_bounds. rewrite !andb_true_iff, !Z.leb_le, Z.eqb_eq. tauto.
Qed.

Lemma aligned_true (a : farray) ofs lanes :
  aligned a ofs lanes = true <-> (fa_addr a + ofs) mod (4 * Z.of_nat lanes) = 0.
Proof. unfold aligned. apply Z.eqb_eq. Qed.

Lemma vec_load_ok lanes b ofs w a :
  w_mem w !! b = Some a ->
  in_bounds a ofs lanes = true -> aligned a ofs lanes = true ->
  vec_load lanes (Ptr (Block b) ofs) w
  = Ok (take lanes (drop (Z.to_nat (ofs / 4)) (fa_data a)), w).
Proof.
  intros Hb Hin Hal. unfold vec_load.
  now rewrite (bind_ok _ _ _ _ _ (resolve_ok _ _ _ _ _ Hb Hin Hal)).
Qed.

Lemma vec_store_ok lanes b ofs v w a :
  w_mem w !! b = Some a ->
  in_bounds a ofs lanes = true -> aligned a ofs lanes = true ->
  vec_store lanes (Ptr (Block b) ofs) v w
  = Ok (tt, World
          (<[b := FArray (fa_addr a)
                    (take (Z.to_nat (ofs / 4)) (fa_data a) ++ v
                     ++ drop (Z.to_nat (ofs / 4) + lanes) (fa_data a))]>
             (w_mem w))
          (w_env w)).
Proof.
  intros Hb Hin Hal. unfold vec_store.
  now rewrite (bind_ok _ _ _ _ _ (resolve_ok _ _ _ _ _ Hb Hin Hal)).
Qed.

Lemma int_add_in_range x y w :
  INT_MIN <= x + y <= INT_MAX -> int_add x y w = Ok (x + y, w).
Proof.
  intros Hr. unfold int_add.
  replace ((INT_MIN <=? x + y) && (x + y <=? INT_MAX)) with true; [reflexivity |].
  symmetry. apply andb_true_iff. split; apply Z.leb_le; lia.
Qed.

Lemma round_up4_bounds n : n <= round_up4 n < n + 4.
Proof. unfold round_up4. Z.div_mod_to_equations. lia. Qed.

(** A multiple of four at or above [n] is at or above [round_up4 n]. *)
Lemma round_up4_least n t : n <= 4 * t -> round_up4 n <= 4 * t.
Proof. unfold round_up4. Z.div_mod_to_equations. lia. Qed.

(** The float [j] places after the one [p] points at. *)
Lemma elem_index ofs j :
  0 <= ofs -> ofs mod 4 = 0 ->
  Z.to_nat ((ofs + 4 * Z.of_nat j) / 4) = (Z.to_nat (ofs / 4) + j)%nat.
Proof. intros H0 H4. Z.div_mod_to_equations. lia. Qed.

Lemma elem_in_bounds (a : farray) ofs len t :
  0 <= ofs -> ofs mod 4 = 0 ->
  ofs / 4 + len <= Z.of_nat (length (fa_data a)) ->
  4 * Z.of_nat t + 4 <= len ->
  in_bounds a (ofs + 4 * Z.of_nat (4 * t)) 4 = true.
Proof.
  intros H0 H4 Hlen Ht. apply in_bounds_true.
  repeat apply conj; Z.div_mod_to_equations; lia.
Qed.

Lemma elem_aligned (a : farray) ofs t :
  (fa_addr a + ofs) mod 16 = 0 ->
  aligned a (ofs + 4 * Z.of_nat (4 * t)) 4 = true.
Proof.
  intros Hal. apply aligned_true. change (4 * Z.of_nat 4) with 16.
  Z.div_mod_to_equations. lia.
Qed.

End Product.

Section ProductLoop.
Context `{T : Target}.

(** One pass over disjoint arrays with room: the next four products
    land in [C]. *)
Lemma sse2_pass_lanewise A B C w bA bB bC aA aB aC len t :
  holds_floats w A bA aA len -> holds_floats w B bB aB len ->
  holds_floats w C bC aC len ->
  bC <> bA -> bC <> bB ->
  4 * Z.of_nat t + 4 <= len ->
  sse2_matrix_multiply_body A B C (Z.of_nat (4 * t))
    (with_array w bC (fa_addr aC)
       (lanewise mul_ss (first_elem A) (first_elem B) (first_elem C)
          (4 * t) (fa_data aA) (fa_data aB) (fa_data aC)))
  = Ok (tt,
        with_array w bC (fa_addr aC)
          (lanewise mul_ss (first_elem A) (first_elem B) (first_elem C)
             (4 * t + 4) (fa_data aA) (fa_data aB) (fa_data aC))).
Proof.
  destruct A as [baseA oA], B as [baseB oB], C as [baseC oC].
  unfold holds_floats, first_elem. simpl.
  intros (-> & HbA & HA0 & HA4 & HAal & HAlen)
         (-> & HbB & HB0 & HB4 & HBal & HBlen)
         (-> & HbC & HC0 & HC4 & HCal & HClen) HCA HCB Ht.
  set (kA := Z.to_nat (oA / 4)). set (kB := Z.to_nat (oB / 4)).
  set (kC := Z.to_nat (oC / 4)).
  set (cur := lanewise mul_ss kA kB kC (4 * t) (fa_data aA) (fa_data aB)
                (fa_data aC)).
  assert (Hcur : length cur = length (fa_data aC)).
  { apply lanewise_length; subst kA kB kC; Z.div_mod_to_equations; lia. }
  unfold sse2_matrix_multiply_body, _mm_load_ps, _mm_store_ps, float_elem.
  simpl.
  erewrite bind_ok; cycle 1.
  { apply (vec_load_ok 4 bA _ _ aA).
    - unfold with_array. simpl. now rewrite lookup_insert_ne.
    - now apply (elem_in_bounds aA oA len t).
    - now apply elem_aligned. }
  erewrite bind_ok; cycle 1.
  { apply (vec_load_ok 4 bB _ _ aB).
    - unfold with_array. simpl. now rewrite lookup_insert_ne.
    - now apply (elem_in_bounds aB oB len t).
    - now apply elem_aligned. }
  rewrite (vec_store_ok 4 bC _ _ _ (FArray (fa_addr aC) cur)); cycle 1.
  { unfold with_array. simpl. apply lookup_insert_eq. }
  { apply in_bounds_true. simpl. rewrite Hcur.
    repeat apply conj; Z.div_mod_to_equations; lia. }
  { now apply elem_aligned. }
  unfold with_array. simpl. rewrite insert_insert_eq.
  rewrite !elem_index by assumption. fold kA kB kC.
  unfold _mm_mul_ps. subst cur.
  rewrite <- (lanewise_step mul_ss kA kB kC (4 * t) 4); try reflexivity;
    subst kA kB kC; Z.div_mod_to_equations; lia.
Qed.

Lemma sse2_loop_lanewise A B C n w bA bB bC aA aB aC fuel t :
  holds_floats w A bA aA (round_up4 n) ->
  holds_floats w B bB aB (round_up4 n) ->
  holds_floats w C bC aC (round_up4 n) ->
  bC <> bA -> bC <> bB ->
  round_up4 n <= INT_MAX ->
  4 * Z.of_nat t <= round_up4 n ->
  n - 4 * Z.of_nat t <= Z.of_nat fuel ->
  sse2_matrix_multiply_loop fuel A B C n (Z.of_nat (4 * t))
    (with_array w bC (fa_addr aC)
       (lanewise mul_ss (first_elem A) (first_elem B) (first_elem C)
          (4 * t) (fa_data aA) (fa_data aB) (fa_data aC)))
  = Ok (tt,
        with_array w bC (fa_addr aC)
          (lanewise mul_ss (first_elem A) (first_elem B) (first_elem C)
             (Z.to_nat (round_up4 n))
             (fa_data aA) (fa_data aB) (fa_data aC))).
Proof.
  intros HA HB HC HCA HCB Hmax. revert t.
  induction fuel as [| fuel IH]; intros t Ht Hfuel;
    cbn [sse2_matrix_multiply_loop];
    destruct (Z.ltb_spec (Z.of_nat (4 * t)) n) as [Hlt | Hge].
  - lia.
  - pose proof (round_up4_least n (Z.of_nat t)).
    replace (Z.to_nat (round_up4 n)) with (4 * t)%nat by lia. reflexivity.
  - assert (Hroom : 4 * Z.of_nat t + 4 <= round_up4 n).
    { revert Ht Hlt. unfold round_up4. Z.div_mod_to_equations. lia. }
    rewrite (bind_ok _ _ _ _ _
               (sse2_pass_lanewise A B C w bA bB bC aA aB aC _ t
                  HA HB HC HCA HCB Hroom)).
    assert (Hint : INT_MIN <= Z.of_nat (4 * t) + 4 <= INT_MAX).
    { unfold INT_MIN. unfold INT_MAX in *. lia. }
    erewrite (bind_ok (int_add _ _)) by exact (int_add_in_range _ _ _ Hint).
    replace (Z.of_nat (4 * t) + 4) with (Z.of_nat (4 * S t)) by lia.
    replace (4 * t + 4)%nat with (4 * S t)%nat by lia.
    apply IH; lia.
  - pose proof (round_up4_least n (Z.of_nat t)).
    replace (Z.to_nat (round_up4 n)) with (4 * t)%nat by lia. reflexivity.
Qed.

Lemma with_array_same w b (a : farray) :
  w_mem w !! b = Some a -> with_array w b (fa_addr a) (fa_data a) = w.
Proof.
  intros Hb. destruct w as [mem env], a as [addr data].
  unfold with_array. simpl in *. now rewrite insert_id.
Qed.

End ProductLoop.

(** X5. Given three arrays with room for the length rounded up to a
    multiple of four, 16-byte aligned where the pointers point, with
    [C] in a block of its own, [sse2_matrix_multiply] returns, and what
    it leaves in [C] is the product of [A] and [B] element by element
    (not a matrix product) over the rounded-up length; nothing else in
    the world changes. *)
Theorem sse2_matrix_multiply_lanewise `{T : Target}
    (A B C : ptr) (n : Z) (w : world)
    (bA bB bC : nat) (aA aB aC : farray) :
  0 <= n -> round_up4 n <= INT_MAX ->
  holds_floats w A bA aA (round_up4 n) ->
  holds_floats w B bB aB (round_up4 n) ->
  holds_floats w C bC aC (round_up4 n) ->
  bC <> bA -> bC <> bB ->
  sse2_matrix_multiply A B C n w
  = Ok (tt,
        with_array w bC (fa_addr aC)
          (lanewise mul_ss (first_elem A) (first_elem B) (first_elem C)
             (Z.to_nat (round_up4 n))
             (fa_data aA) (fa_data aB) (fa_data aC))).
Proof.
  intros Hn Hmax HA HB HC HCA HCB. unfold sse2_matrix_multiply.
  assert (HbC : w_mem w !! bC = Some aC) by apply HC.
  rewrite <- (with_array_same w bC aC HbC) at 1.
  rewrite <- (lanewise_0 mul_ss (first_elem A) (first_elem B) (first_elem C)
                (fa_data aA) (fa_data aB) (fa_data aC)) at 1.
  pose proof (round_up4_bounds n).
  apply (sse2_loop_lanewise A B C n w bA bB bC aA aB aC (Z.to_nat n) 0);
    auto; lia.
Qed.

Lemma sse2_matrix_multiply_lanewise_witness :
  @sse2_matrix_multiply ref_target
    (Ptr (Block 0) 0) (Ptr (Block 1) 0) (Ptr (Block 2) 0) 6 ref_world
  = Ok (tt,
        @with_array ref_target ref_world 2 12288
          [10; 40; 90; 160; 250; 360; 490; 640]).
Proof.
  apply (@sse2_matrix_multiply_lanewise ref_target
           (Ptr (Block 0) 0) (Ptr (Block 1) 0) (Ptr (Block 2) 0) 6 ref_world
           0 1 2
           (@FArray ref_target 4096 [1; 2; 3; 4; 5; 6; 7; 8])
           (@FArray ref_target 8192 [10; 20; 30; 40; 50; 60; 70; 80])
           (@FArray ref_target 12288 [0; 0; 0; 0; 0; 0; 0; 0])).
  - lia.
  - vm_compute. discriminate.
  - repeat apply conj; try reflexivity; vm_compute; discriminate.
  - repeat apply conj; try reflexivity; vm_compute; discriminate.
  - repeat apply conj; try reflexivity; vm_compute; discriminate.
  - lia.
  - lia.
Defined.

(** ** What [sse2_matrix_multiply] needs and what it leaves alone *)

Section Requirements.
Context `{T : Target}.

Lemma int_add_ok_world x y w r w' : int_add x y w = Ok (r, w') -> w' = w.
Proof.
  unfold int_add. destruct (_ && _); [| discriminate].
  unfold ret. congruence.
Qed.

Lemma int_add_ok_range x y w r w' :
  int_add x y w = Ok (r, w') -> x + y <= INT_MAX.
Proof.
  unfold int_add.
  destruct ((INT_MIN <=? x + y) && (x + y <=? INT_MAX)) eqn:Hr; [| discriminate].
  intros _. apply andb_true_iff in Hr as [_ Hr]. now apply Z.leb_le.
Qed.

(** A vector access of four floats that resolves had room for them. *)
Lemma resolve_room p w s w' :
  resolve 4 p w = Ok (s, w') -> room w p 4.
Proof.
  intros Hr.
  destruct (resolve_ok_inv _ _ _ _ _ Hr) as (_ & Hbase & Hb & Hin & Hal & _).
  apply in_bounds_true in Hin as (H0 & H4 & Hlen).
  apply aligned_true in Hal. change (4 * Z.of_nat 4) with 16 in Hal.
  exists (s_block s), (s_array s). unfold holds_floats. auto 10.
Qed.

Lemma room_shape w w' p len :
  (forall b, shape w' b = shape w b) -> room w' p len -> room w p len.
Proof.
  intros Hshape (b & a' & Hbase & Hb & H0 & H4 & Hal & Hlen).
  specialize (Hshape b). unfold shape in Hshape. rewrite Hb in Hshape.
  destruct (w_mem w !! b) as [a |] eqn:Hwb; [| discriminate].
  injection Hshape as Haddr Hlength.
  exists b, a. unfold holds_floats. rewrite <- Haddr, <- Hlength. auto 10.
Qed.

(** Room for four floats here and for [len] floats four places on is
    room for [len + 4] floats here. *)
Lemma room_extend w p i len :
  room w (float_elem p i) 4 -> room w (float_elem p (i + 4)) len ->
  room w (float_elem p i) (len + 4).
Proof.
  intros (b & a & Hbase & Hb & H0 & H4 & Hal & _)
         (b' & a' & Hbase' & Hb' & _ & _ & _ & Hlen).
  simpl in *. rewrite Hbase in Hbase'. injection Hbase' as <-.
  rewrite Hb in Hb'. injection Hb' as <-.
  exists b, a. unfold holds_floats. simpl.
  repeat apply conj; auto.
  revert Hlen H4. Z.div_mod_to_equations. lia.
Qed.

Lemma float_elem_0 p : float_elem p 0 = p.
Proof. destruct p as [b o]. unfold float_elem. simpl. f_equal. lia. Qed.

(** A pass that completes found room for four floats behind each of
    the three pointers, and changed nothing but the elements of the
    array [C] points into. *)
Lemma sse2_pass_inv A B C i w u w' :
  sse2_matrix_multiply_body A B C i w = Ok (u, w') ->
  (room w (float_elem A i) 4 /\ room w (float_elem B i) 4
   /\ room w (float_elem C i) 4)
  /\ w_env w' = w_env w
  /\ (forall b, p_base C <> Block b -> w_mem w' !! b = w_mem w !! b)
  /\ (forall b, shape w' b = shape w b).
Proof.
  unfold sse2_matrix_multiply_body, _mm_load_ps, _mm_store_ps. intros Hbody.
  apply bind_ok_inv in Hbody as (va & w1 & Hla & Hbody).
  apply bind_ok_inv in Hbody as (vb & w2 & Hlb & Hst).
  apply vec_load_ok_inv in Hla as (-> & sa & Hra & Hva).
  apply vec_load_ok_inv in Hlb as (-> & sb & Hrb & Hvb).
  destruct u. apply vec_store_ok_inv in Hst as (sc & Hrc & ->).
  split; [repeat apply conj; eapply resolve_room; eassumption |].
  destruct (resolve_ok_inv _ _ _ _ _ Hra) as (_ & _ & _ & Hina & _ & Hia).
  destruct (resolve_ok_inv _ _ _ _ _ Hrb) as (_ & _ & _ & Hinb & _ & Hib).
  destruct (resolve_ok_inv _ _ _ _ _ Hrc)
    as (_ & Hbase & Hbc & Hinc & _ & Hic).
  apply in_bounds_true in Hina as (Ha0 & _ & Halen).
  apply in_bounds_true in Hinb as (Hb0 & _ & Hblen).
  apply in_bounds_true in Hinc as (Hc0 & _ & Hclen).
  simpl in Hbase. simpl. repeat apply conj.
  - reflexivity.
  - intros b Hb. apply lookup_insert_ne. congruence.
  - intros b. unfold shape. simpl.
    destruct (decide (s_block sc = b)) as [<- | Hne].
    + rewrite lookup_insert_eq, Hbc. simpl. do 2 f_equal.
      unfold _mm_mul_ps.
      rewrite !length_app, length_zip_with, Hva, Hvb, !length_take,
        !length_drop.
      rewrite Hia, Hib, Hic.
      revert Halen Hblen Hclen. Z.div_mod_to_equations. lia.
    + now rewrite lookup_insert_ne.
Qed.

Lemma sse2_loop_frame fuel A B C n i w w' :
  sse2_matrix_multiply_loop fuel A B C n i w = Ok (tt, w') ->
  w_env w' = w_env w
  /\ (forall b, p_base C <> Block b -> w_mem w' !! b = w_mem w !! b)
  /\ (forall b, shape w' b = shape w b).
Proof.
  revert i w. induction fuel as [| fuel IH]; intros i w;
    cbn [sse2_matrix_multiply_loop]; destruct (i <? n);
    try (intros [= <-]; auto); try discriminate.
  intros Hloop.
  apply bind_ok_inv in Hloop as (u & w1 & Hpass & Hloop).
  apply bind_ok_inv in Hloop as (i' & w2 & Hadd & Hloop).
  apply int_add_ok_world in Hadd as ->.
  apply sse2_pass_inv in Hpass as (_ & Henv1 & Hframe1 & Hshape1).
  apply IH in Hloop as (Henv & Hframe & Hshape).
  repeat apply conj.
  - congruence.
  - intros b Hb. rewrite Hframe, Hframe1; auto.
  - intros b. rewrite Hshape. apply Hshape1.
Qed.

Lemma sse2_loop_requires fuel A B C n i w w' :
  0 <= i -> i mod 4 = 0 -> i < n ->
  sse2_matrix_multiply_loop fuel A B C n i w = Ok (tt, w') ->
  round_up4 n <= INT_MAX
  /\ room w (float_elem A i) (round_up4 n - i)
  /\ room w (float_elem B i) (round_up4 n - i)
  /\ room w (float_elem C i) (round_up4 n - i).
Proof.
  revert i w. induction fuel as [| fuel IH]; intros i w Hi0 Hi4 Hlt;
    cbn [sse2_matrix_multiply_loop];
    replace (i <? n) with true by lia; [discriminate |].
  intros Hloop.
  apply bind_ok_inv in Hloop as (u & w1 & Hpass & Hloop).
  apply bind_ok_inv in Hloop as (i' & w2 & Hadd & Hloop).
  pose proof (int_add_ok_range _ _ _ _ _ Hadd) as Hmax.
  pose proof (int_add_ok _ _ _ _ _ Hadd) as ->.
  apply int_add_ok_world in Hadd as ->.
  apply sse2_pass_inv in Hpass as ((HA & HB & HC) & _ & _ & Hshape).
  destruct (Z.lt_ge_cases (i + 4) n) as [Hmore | Hlast].
  - apply IH in Hloop as (Hint & HA' & HB' & HC');
      [| lia | revert Hi4; Z.div_mod_to_equations; lia | lia].
    replace (round_up4 n - i) with (round_up4 n - (i + 4) + 4) by lia.
    repeat apply conj; [exact Hint | | |];
      apply room_extend; eauto using room_shape.
  - assert (Hround : round_up4 n = i + 4).
    { revert Hi4 Hlt Hlast. unfold round_up4. Z.div_mod_to_equations. lia. }
    rewrite Hround. replace (i + 4 - i) with 4 by lia. auto.
Qed.

End Requirements.

(** X6. A call of [sse2_matrix_multiply] with a positive length that
    returns was given room: behind each of [A], [B] and [C] there are
    as many floats as the length rounded up to a multiple of four,
    starting at a 16-byte aligned address, and the rounded-up length
    fits in an [int]. A length that is not a multiple of four makes the
    last pass reach past the length given. *)
Theorem sse2_matrix_multiply_needs_room `{T : Target}
    (A B C : ptr) (n : Z) (w w' : world) :
  0 < n ->
  sse2_matrix_multiply A B C n w = Ok (tt, w') ->
  round_up4 n <= INT_MAX
  /\ room w A (round_up4 n) /\ room w B (round_up4 n)
  /\ room w C (round_up4 n).
Proof.
  intros Hn Hcall. unfold sse2_matrix_multiply in Hcall.
  apply sse2_loop_requires in Hcall; [| lia | reflexivity | lia].
  now rewrite !float_elem_0, Z.sub_0_r in Hcall.
Qed.

Lemma sse2_matrix_multiply_needs_room_witness :
  round_up4 6 <= INT_MAX
  /\ @room ref_target ref_world (Ptr (Block 0) 0) (round_up4 6)
  /\ @room ref_target ref_world (Ptr (Block 1) 0) (round_up4 6)
  /\ @room ref_target ref_world (Ptr (Block 2) 0) (round_up4 6).
Proof.
  apply (@sse2_matrix_multiply_needs_room ref_target
           (Ptr (Block 0) 0) (Ptr (Block 1) 0) (Ptr (Block 2) 0) 6 ref_world
           (@with_array ref_target ref_world 2 12288
              [10; 40; 90; 160; 250; 360; 490; 640])).
  - lia.
  - vm_compute. reflexivity.
Defined.

(** X7. [sse2_matrix_multiply] writes through [C] only: when it returns,
    every array outside the block [C] points into is what it was, the
    environment is untouched, and no array, the one behind [C]
    included, has moved or changed its length. *)
Theorem sse2_matrix_multiply_writes_C_only `{T : Target}
    (A B C : ptr) (n : Z) (w w' : world) :
  sse2_matrix_multiply A B C n w = Ok (tt, w') ->
  w_env w' = w_env w
  /\ (forall b, p_base C <> Block b -> w_mem w' !! b = w_mem w !! b)
  /\ (forall b, shape w' b = shape w b).
Proof. apply sse2_loop_frame. Qed.

Lemma sse2_matrix_multiply_writes_C_only_witness :
  let w' := @with_array ref_target ref_world 2 12288
              [10; 40; 90; 160; 250; 360; 490; 640] in
  w_env w' = w_env ref_world
  /\ (forall b, Block 2 <> Block b -> w_mem w' !! b = w_mem ref_world !! b)
  /\ (forall b, shape w' b = shape ref_world b).
Proof.
  apply (@sse2_matrix_multiply_writes_C_only ref_target
           (Ptr (Block 0) 0) (Ptr (Block 1) 0) (Ptr (Block 2) 0) 6).
  vm_compute. reflexivity.
Defined.

(** ** What [x86_bmi2_popcnt] returns *)

Lemma testbit_deposit b m i :
  0 <= m -> 0 <= i -> Z.testbit (Z.shiftl (Z.b2z b) m) i = b && (i =? m).
Proof.
  intros Hm Hi. rewrite Z.shiftl_spec by assumption.
  destruct (Z.eqb_spec i m) as [-> | Hne].
  - rewrite Z.sub_diag, Z.b2z_bit0. now rewrite andb_true_r.
  - rewrite andb_false_r. destruct (Z.lt_ge_cases i m).
    + apply Z.testbit_neg_r. lia.
    + destruct b; simpl.
      * apply (Z.bits_above_log2 1 (i - m)); simpl; lia.
      * apply Z.bits_0.
Qed.

Lemma pdep_loop_bit count temp mask : forall m k dest i,
  0 <= m -> 0 <= i ->
  (forall j, m <= j -> Z.testbit dest j = false) ->
  Z.testbit (pdep_loop count temp mask m k dest) i =
    if (m <=? i) && (i <? m + Z.of_nat count)
    then Z.testbit mask i && Z.testbit temp (k + rank mask m (Z.to_nat (i - m)))
    else Z.testbit dest i.
Proof.
  induction count as [| count IH]; intros m k dest i Hm Hi Hdest.
  - cbn [pdep_loop]. replace ((m <=? i) && (i <? m + Z.of_nat 0)) with false by lia.
    reflexivity.
  - cbn [pdep_loop]. destruct (Z.testbit mask m) eqn:Hmask.
    + rewrite IH; [| lia | lia |].
      2:{ intros j Hj. rewrite Z.lor_spec, Hdest, testbit_deposit by lia.
          replace (j =? m) with false by lia. now rewrite andb_false_r. }
      destruct (Z.eq_dec i m) as [-> | Hne].
      * replace ((m + 1 <=? m) && _) with false by lia.
        replace ((m <=? m) && _) with true by lia.
        rewrite Z.lor_spec, Hdest, testbit_deposit, Hmask, Z.sub_diag by lia.
        simpl. rewrite Z.add_0_r, Z.eqb_refl. now rewrite andb_true_r.
      * destruct ((m <=? i) && (i <? m + Z.of_nat (S count))) eqn:Hin.
        -- replace ((m + 1 <=? i) && (i <? m + 1 + Z.of_nat count)) with true by lia.
           replace (Z.to_nat (i - m)) with (S (Z.to_nat (i - (m + 1)))) by lia.
           cbn [rank]. rewrite Hmask. simpl Z.b2z. do 2 f_equal. lia.
        -- replace ((m + 1 <=? i) && (i <? m + 1 + Z.of_nat count)) with false by lia.
           rewrite Z.lor_spec, testbit_deposit by lia.
           replace (i =? m) with false by lia.
           now rewrite andb_false_r, orb_false_r.
    + rewrite IH; [| lia | lia | intros j Hj; apply Hdest; lia].
      destruct (Z.eq_dec i m) as [-> | Hne].
      * replace ((m + 1 <=? m) && _) with false by lia.
        replace ((m <=? m) && _) with true by lia.
        rewrite Hmask. apply Hdest. lia.
      * destruct ((m <=? i) && (i <? m + Z.of_nat (S count))) eqn:Hin.
        -- replace ((m + 1 <=? i) && (i <? m + 1 + Z.of_nat count)) with true by lia.
           replace (Z.to_nat (i - m)) with (S (Z.to_nat (i - (m + 1)))) by lia.
           cbn [rank]. rewrite Hmask. simpl Z.b2z. do 2 f_equal.
        -- replace ((m + 1 <=? i) && (i <? m + 1 + Z.of_nat count)) with false by lia.
           reflexivity.
Qed.

Lemma below_64 (P : Z -> bool) :
  List.forallb P (List.map Z.of_nat (List.seq 0 64)) = true ->
  forall i, 0 <= i < 64 -> P i = true.
Proof.
  intros Hall i Hi. rewrite List.forallb_forall in Hall. apply Hall.
  apply List.in_map_iff. exists (Z.to_nat i). split; [lia |].
  apply List.in_seq. lia.
Qed.

(** In [0xAAAA...] the odd bits are set, so below bit [i] there are
    [i / 2] of them. *)
Lemma odd_mask_bits i :
  0 <= i < 64 ->
  Z.testbit (u64 0xAAAAAAAAAAAAAAAA) i = Z.odd i
  /\ rank (u64 0xAAAAAAAAAAAAAAAA) 0 (Z.to_nat i) = i / 2.
Proof.
  intros Hi.
  pose proof (below_64
    (fun i => Bool.eqb (Z.testbit (u64 0xAAAAAAAAAAAAAAAA) i) (Z.odd i)
              && (rank (u64 0xAAAAAAAAAAAAAAAA) 0 (Z.to_nat i) =? i / 2))
    eq_refl i Hi) as Hcheck.
  apply andb_true_iff in Hcheck as [Hbit Hrank].
  split; [now apply Bool.eqb_prop | now apply Z.eqb_eq].
Qed.

Lemma popcnt_bit x i :
  0 <= i ->
  Z.testbit (x86_bmi2_popcnt x) i
  = (i <? 64) && Z.odd i && Z.testbit x (i / 2).
Proof.
  intros Hi. unfold x86_bmi2_popcnt, _pdep_u64.
  rewrite pdep_loop_bit; [| lia | lia | intros; apply Z.bits_0].
  rewrite Z.bits_0, Z.sub_0_r. change (Z.of_nat 64) with 64.
  destruct (Z.ltb_spec i 64) as [Hlt | Hge].
  - replace ((0 <=? i) && (i <? 0 + 64)) with true by lia.
    destruct (odd_mask_bits i) as [-> ->]; [lia |].
    simpl. f_equal. unfold u64. apply Z.mod_pow2_bits_low.
    Z.div_mod_to_equations. lia.
  - replace ((0 <=? i) && (i <? 0 + 64)) with false by lia. reflexivity.
Qed.

Lemma popcnt_range x : 0 <= x86_bmi2_popcnt x < 2 ^ 64.
Proof.
  assert (Hmod : x86_bmi2_popcnt x mod 2 ^ 64 = x86_bmi2_popcnt x).
  { apply Z.bits_inj'. intros i Hi.
    destruct (Z.lt_ge_cases i 64).
    - now apply Z.mod_pow2_bits_low.
    - rewrite Z.mod_pow2_bits_high by lia. rewrite popcnt_bit by lia.
      now replace (i <? 64) with false by lia. }
  rewrite <- Hmod. apply Z.mod_pos_bound. lia.
Qed.

Lemma popcnt_low_half x : x86_bmi2_popcnt x = x86_bmi2_popcnt (x mod 2 ^ 32).
Proof.
  apply Z.bits_inj'. intros i Hi. rewrite !popcnt_bit by lia.
  destruct (Z.ltb_spec i 64) as [Hlt | Hge]; [| reflexivity].
  simpl. f_equal. symmetry. apply Z.mod_pow2_bits_low.
  Z.div_mod_to_equations. lia.
Qed.

(** X8. Despite its name [x86_bmi2_popcnt] counts nothing: it spreads
    the low 32 bits of [x] over the odd bit positions of the result
    (bit [k] of [x] becomes bit [2k + 1]) and leaves the even positions
    clear. The result is a 64-bit value and the high 32 bits of [x]
    never reach it. *)
Theorem x86_bmi2_popcnt_spreads_bits (x i : Z) :
  0 <= i ->
  Z.testbit (x86_bmi2_popcnt x) i
    = (i <? 64) && Z.odd i && Z.testbit x (i / 2)
  /\ 0 <= x86_bmi2_popcnt x < 2 ^ 64
  /\ x86_bmi2_popcnt x = x86_bmi2_popcnt (x mod 2 ^ 32).
Proof.
  intros Hi. repeat apply conj.
  - now apply popcnt_bit.
  - apply popcnt_range.
  - apply popcnt_range.
  - apply popcnt_low_half.
Qed.

Lemma x86_bmi2_popcnt_spreads_bits_witness :
  Z.testbit (x86_bmi2_popcnt 7) 5
    = (5 <? 64) && Z.odd 5 && Z.testbit 7 (5 / 2)
  /\ 0 <= x86_bmi2_popcnt 7 < 2 ^ 64
  /\ x86_bmi2_popcnt 7 = x86_bmi2_popcnt (7 mod 2 ^ 32).
Proof. apply (x86_bmi2_popcnt_spreads_bits 7 5). lia. Defined.

(** Three set bits in, [0b101010] out. *)
Example x86_bmi2_popcnt_7 : x86_bmi2_popcnt 7 = 42.
Proof. reflexivity. Qed.


(** ** Byte objects *)

Lemma splice_length obj k bs :
  (k + length bs <= length obj)%nat -> length (splice obj k bs) = length obj.
Proof.
  intros Hk. unfold splice.
  rewrite !length_app, length_take, length_drop. lia.
Qed.

(** Two stores side by side are one store of both. *)
Lemma splice_splice obj k bs1 bs2 :
  (k + length bs1 + length bs2 <= length obj)%nat ->
  splice (splice obj k bs1) (k + length bs1) bs2 = splice obj k (bs1 ++ bs2).
Proof.
  intros Hk. unfold splice.
  assert (Hk' : length (take k obj) = k) by (rewrite length_take; lia).
  rewrite (app_assoc (take k obj) bs1).
  rewrite take_app_length' by (rewrite length_app; lia).
  replace (k + length bs1 + length bs2)%nat
    with (length (take k obj ++ bs1) + length bs2)%nat
    by (rewrite length_app; lia).
  rewrite drop_app_add, drop_drop, length_app.
  rewrite <- !app_assoc. do 4 f_equal. lia.
Qed.

Lemma le_value_le32 x : le_value (le32 x) = x mod 2 ^ 32.
Proof. unfold le32, le_value. Z.div_mod_to_equations. lia. Qed.

Section ByteFacts.
Context {T0 : Target}.

Lemma objects_with_objects (w : @world (byte_target T0)) objs :
  objects (with_objects w objs) = objs.
Proof. reflexivity. Qed.

Lemma with_objects_twice (w : @world (byte_target T0)) objs objs' :
  with_objects (with_objects w objs) objs' = with_objects w objs'.
Proof. reflexivity. Qed.

Lemma resolve_bytes_ok len name ofs (w : @world (byte_target T0)) obj :
  objects w !! name = Some obj ->
  0 <= ofs -> ofs + Z.of_nat len <= Z.of_nat (length obj) ->
  resolve_bytes len (Ptr (Auto name) ofs) w
  = Ok (Span name obj (Z.to_nat ofs), w).
Proof.
  intros Hobj H0 Hlen. unfold resolve_bytes. simpl. rewrite Hobj.
  now replace ((0 <=? ofs) && (ofs + Z.of_nat len <=? Z.of_nat (length obj)))
    with true by lia.
Qed.

Lemma resolve_bytes_ok_inv len p (w w' : @world (byte_target T0)) sp :
  resolve_bytes len p w = Ok (sp, w') ->
  w' = w /\ p_base p = Auto (sp_name sp)
  /\ objects w !! sp_name sp = Some (sp_bytes sp)
  /\ 0 <= p_ofs p
  /\ p_ofs p + Z.of_nat len <= Z.of_nat (length (sp_bytes sp))
  /\ sp_index sp = Z.to_nat (p_ofs p).
Proof.
  unfold resolve_bytes. destruct (p_base p) as [| b | name]; try discriminate.
  destruct (objects w !! name) as [obj |] eqn:Hobj; try discriminate.
  destruct ((0 <=? p_ofs p)
            && (p_ofs p + Z.of_nat len <=? Z.of_nat (length obj))) eqn:Hin;
    try discriminate.
  intros [= <- <-]. simpl. repeat apply conj; auto; lia.
Qed.

Lemma resolve_bytes_null len p (w : @world (byte_target T0)) :
  p_base p = Null -> resolve_bytes len p w = Fault NullDeref.
Proof. intros Hp. unfold resolve_bytes. now rewrite Hp. Qed.

Lemma store_bytes_ok name ofs bs (w : @world (byte_target T0)) obj :
  objects w !! name = Some obj ->
  0 <= ofs -> ofs + Z.of_nat (length bs) <= Z.of_nat (length obj) ->
  store_bytes (Ptr (Auto name) ofs) bs w
  = Ok (tt, with_objects w
              (<[name := splice obj (Z.to_nat ofs) bs]> (objects w))).
Proof.
  intros Hobj H0 Hlen. unfold store_bytes.
  now rewrite (bind_ok _ _ _ _ _ (resolve_bytes_ok _ _ _ _ _ Hobj H0 Hlen)).
Qed.

Lemma store_bytes_ok_inv p bs (w w' : @world (byte_target T0)) :
  store_bytes p bs w = Ok (tt, w') ->
  exists name obj,
    p_base p = Auto name /\ objects w !! name = Some obj
    /\ 0 <= p_ofs p
    /\ p_ofs p + Z.of_nat (length bs) <= Z.of_nat (length obj)
    /\ w' = with_objects w
              (<[name := splice obj (Z.to_nat (p_ofs p)) bs]> (objects w)).
Proof.
  unfold store_bytes, bind.
  destruct (resolve_bytes (length bs) p w) as [[sp w1] | f] eqn:Hr;
    [| discriminate].
  destruct (resolve_bytes_ok_inv _ _ _ _ _ Hr)
    as (-> & Hbase & Hobj & H0 & Hlen & Hidx).
  intros [= <-]. exists (sp_name sp), (sp_bytes sp).
  rewrite <- Hidx. unfold splice. auto 10.
Qed.

Lemma load_bytes_ok len name ofs (w : @world (byte_target T0)) obj :
  objects w !! name = Some obj ->
  0 <= ofs -> ofs + Z.of_nat len <= Z.of_nat (length obj) ->
  load_bytes len (Ptr (Auto name) ofs) w
  = Ok (take len (drop (Z.to_nat ofs) obj), w).
Proof.
  intros Hobj H0 Hlen. unfold load_bytes.
  now rewrite (bind_ok _ _ _ _ _ (resolve_bytes_ok _ _ _ _ _ Hobj H0 Hlen)).
Qed.

Lemma load_bytes_ok_inv len p (w w' : @world (byte_target T0)) bs :
  load_bytes len p w = Ok (bs, w') ->
  w' = w /\ exists name obj,
    p_base p = Auto name /\ objects w !! name = Some obj
    /\ 0 <= p_ofs p /\ p_ofs p + Z.of_nat len <= Z.of_nat (length obj).
Proof.
  unfold load_bytes, bind.
  destruct (resolve_bytes len p w) as [[sp w1] | f] eqn:Hr; [| discriminate].
  destruct (resolve_bytes_ok_inv _ _ _ _ _ Hr)
    as (-> & Hbase & Hobj & H0 & Hlen & Hidx).
  intros [= <- <-]. split; [reflexivity |].
  exists (sp_name sp), (sp_bytes sp). auto.
Qed.

End ByteFacts.

(** ** [get_cpu_vendor] and [read_msr] *)

Section Vendor.
Context {T0 : Target} {X : @Externals (byte_target T0)}.

(** A store next to the bytes just stored. *)
Lemma store_bytes_next name ofs bs1 bs2 (w : @world (byte_target T0)) obj :
  objects w !! name = Some obj ->
  0 <= ofs ->
  ofs + Z.of_nat (length bs1) + Z.of_nat (length bs2)
    <= Z.of_nat (length obj) ->
  store_bytes (Ptr (Auto name) (ofs + Z.of_nat (length bs1))) bs2
    (with_objects w (<[name := splice obj (Z.to_nat ofs) bs1]> (objects w)))
  = Ok (tt, with_objects w
              (<[name := splice obj (Z.to_nat ofs) (bs1 ++ bs2)]>
                 (objects w))).
Proof.
  intros Hobj H0 Hlen.
  rewrite (store_bytes_ok name _ bs2 _ (splice obj (Z.to_nat ofs) bs1)).
  - rewrite with_objects_twice, objects_with_objects, insert_insert_eq.
    replace (Z.to_nat (ofs + Z.of_nat (length bs1)))
      with (Z.to_nat ofs + length bs1)%nat by lia.
    rewrite splice_splice by lia. reflexivity.
  - rewrite objects_with_objects. apply lookup_insert_eq.
  - lia.
  - rewrite splice_length by lia. lia.
Qed.

Lemma get_cpu_vendor_ok name ofs regs (w w1 : @world (byte_target T0)) obj :
  asm "cpuid" [OReg EAX 0] w = Ok (regs, w1) ->
  objects w1 !! name = Some obj ->
  0 <= ofs -> ofs + 13 <= Z.of_nat (length obj) ->
  get_cpu_vendor (Ptr (Auto name) ofs) w
  = Ok (tt, with_objects w1
              (<[name := splice obj (Z.to_nat ofs) (vendor_bytes regs)]>
                 (objects w1))).
Proof.
  intros Hcpuid Hobj H0 Hlen. unfold get_cpu_vendor.
  rewrite (bind_ok _ _ _ _ _ Hcpuid).
  unfold store_u32, store_char, byte_elem. simpl p_base. simpl p_ofs.
  rewrite !u32_idem.
  erewrite bind_ok; cycle 1.
  { apply (store_bytes_ok name ofs _ w1 obj); [assumption | lia |].
    simpl length. lia. }
  erewrite bind_ok; cycle 1.
  { apply (store_bytes_next name ofs (le32 _) (le32 _) w1 obj);
      [assumption | lia | simpl length; lia]. }
  erewrite bind_ok; cycle 1.
  { apply (store_bytes_next name ofs (le32 _ ++ le32 _) (le32 _) w1 obj);
      [assumption | lia | simpl length; lia]. }
  etransitivity.
  { apply (store_bytes_next name ofs ((le32 _ ++ le32 _) ++ le32 _)
             [0 mod 256] w1 obj);
      [assumption | lia | simpl length; lia]. }
  unfold vendor_bytes. now rewrite <- !app_assoc.
Qed.

(** A store that succeeds found room in the object it went to, and
    left that object its length. *)
Lemma store_bytes_room name ofs bs (w w' : @world (byte_target T0)) :
  store_bytes (Ptr (Auto name) ofs) bs w = Ok (tt, w') ->
  exists obj obj',
    objects w !! name = Some obj /\ objects w' !! name = Some obj'
    /\ length obj' = length obj
    /\ 0 <= ofs /\ ofs + Z.of_nat (length bs) <= Z.of_nat (length obj).
Proof.
  intros Hst.
  apply store_bytes_ok_inv in Hst
    as (name' & obj & [= <-] & Hobj & H0 & Hlen & ->).
  simpl in *. exists obj, (splice obj (Z.to_nat ofs) bs).
  rewrite objects_with_objects, lookup_insert_eq, splice_length by lia.
  auto 10.
Qed.

Lemma get_cpu_vendor_ok_inv name ofs regs (w w1 w' : @world (byte_target T0))
    obj :
  asm "cpuid" [OReg EAX 0] w = Ok (regs, w1) ->
  objects w1 !! name = Some obj ->
  get_cpu_vendor (Ptr (Auto name) ofs) w = Ok (tt, w') ->
  0 <= ofs /\ ofs + 13 <= Z.of_nat (length obj).
Proof.
  intros Hcpuid Hobj. unfold get_cpu_vendor.
  rewrite (bind_ok _ _ _ _ _ Hcpuid).
  unfold store_u32, store_char, byte_elem. simpl p_base. simpl p_ofs.
  intros Hcall.
  apply bind_ok_inv in Hcall as ([] & w2 & Hs1 & Hcall).
  apply bind_ok_inv in Hcall as ([] & w3 & Hs2 & Hcall).
  apply bind_ok_inv in Hcall as ([] & w4 & Hs3 & Hs4).
  apply store_bytes_room in Hs1 as (o1 & o2 & Ho1 & Ho2 & Hl1 & H0 & _).
  apply store_bytes_room in Hs2 as (o2' & o3 & Ho2' & Ho3 & Hl2 & _ & _).
  apply store_bytes_room in Hs3 as (o3' & o4 & Ho3' & Ho4 & Hl3 & _ & _).
  apply store_bytes_room in Hs4 as (o4' & o5 & Ho4' & _ & _ & _ & Hlen).
  assert (o1 = obj) by congruence. assert (o2' = o2) by congruence.
  assert (o3' = o3) by congruence. assert (o4' = o4) by congruence.
  subst. simpl length in Hlen. lia.
Qed.

End Vendor.

(** X9. [get_cpu_vendor] writes thirteen bytes where [vendor] points:
    the bytes of [ebx], [edx] and [ecx] of [cpuid] leaf 0, in that
    order and low byte first, then a zero. The bytes before and after
    them in the buffer, every other object and the float arrays stay
    as [cpuid] left them. *)
Theorem get_cpu_vendor_writes_vendor_string
    {T0 : Target} {X : @Externals (byte_target T0)}
    (name : string) (ofs : Z) (regs : reg -> Z)
    (w w1 : @world (byte_target T0)) (obj : list Z) :
  asm "cpuid" [OReg EAX 0] w = Ok (regs, w1) ->
  objects w1 !! name = Some obj ->
  0 <= ofs -> ofs + 13 <= Z.of_nat (length obj) ->
  get_cpu_vendor (Ptr (Auto name) ofs) w
  = Ok (tt, with_objects w1
              (<[name := splice obj (Z.to_nat ofs) (vendor_bytes regs)]>
                 (objects w1))).
Proof. apply get_cpu_vendor_ok. Qed.

Lemma get_cpu_vendor_writes_vendor_string_witness :
  @get_cpu_vendor ref_target ref_byte_externals (Ptr (Auto "vendor") 0)
    ref_byte_world
  = Ok (tt, with_objects ref_byte_world
              (<["vendor" :=
                   [71; 101; 110; 117; 105; 110; 101; 73; 110; 116; 101; 108;
                    0]]>
                 (objects ref_byte_world))).
Proof.
  apply (@get_cpu_vendor_writes_vendor_string ref_target ref_byte_externals
           "vendor" 0 ref_cpuid ref_byte_world ref_byte_world
           [1; 2; 3; 4; 5; 6; 7; 8; 9; 10; 11; 12; 13]).
  - reflexivity.
  - reflexivity.
  - lia.
  - simpl. lia.
Defined.

(** X10. Thirteen bytes are what [get_cpu_vendor] needs: given a pointer
    into a buffer, the call returns exactly when the buffer has
    thirteen bytes from the pointer on. With twelve it runs off the
    end at the terminating zero. *)
Theorem get_cpu_vendor_needs_13_bytes
    {T0 : Target} {X : @Externals (byte_target T0)}
    (name : string) (ofs : Z) (regs : reg -> Z)
    (w w1 : @world (byte_target T0)) (obj : list Z) :
  asm "cpuid" [OReg EAX 0] w = Ok (regs, w1) ->
  objects w1 !! name = Some obj ->
  (exists w', get_cpu_vendor (Ptr (Auto name) ofs) w = Ok (tt, w'))
  <-> 0 <= ofs /\ ofs + 13 <= Z.of_nat (length obj).
Proof.
  intros Hcpuid Hobj. split.
  - intros (w' & Hcall). eapply get_cpu_vendor_ok_inv; eassumption.
  - intros [H0 Hlen]. eexists.
    apply (get_cpu_vendor_ok name ofs regs w w1 obj); assumption.
Qed.

Lemma get_cpu_vendor_needs_13_bytes_witness :
  (exists w', @get_cpu_vendor ref_target ref_byte_externals
                (Ptr (Auto "vendor") 1) ref_byte_world = Ok (tt, w'))
  <-> 0 <= 1 /\ 1 + 13 <= 13.
Proof.
  apply (@get_cpu_vendor_needs_13_bytes ref_target ref_byte_externals
           "vendor" 1 ref_cpuid ref_byte_world ref_byte_world
           [1; 2; 3; 4; 5; 6; 7; 8; 9; 10; 11; 12; 13]);
    reflexivity.
Defined.

Lemma read_splice obj k bs :
  (k + length bs <= length obj)%nat ->
  take (length bs) (drop k (splice obj k bs)) = bs.
Proof.
  intros Hk. unfold splice.
  rewrite drop_app_length' by (rewrite length_take; lia).
  apply take_app_length.
Qed.

Section Msr.
Context {T0 : Target} {X : @Externals (byte_target T0)}.

(** Reading back the four bytes just stored gives the value stored. *)
Lemma load_u32_stored name ofs x (w : @world (byte_target T0)) objs obj :
  objs !! name = Some (splice obj (Z.to_nat ofs) (le32 (u32 x))) ->
  0 <= ofs -> ofs + 4 <= Z.of_nat (length obj) ->
  load_u32 (Ptr (Auto name) ofs) (with_objects w objs)
  = Ok (x mod 2 ^ 32, with_objects w objs).
Proof.
  intros Hobj H0 Hlen. unfold load_u32.
  erewrite bind_ok; cycle 1.
  { apply (load_bytes_ok 4 name ofs (with_objects w objs) _ Hobj);
      [assumption |].
    rewrite splice_length by (simpl length; lia). lia. }
  change 4%nat with (length (le32 (u32 x))) at 1.
  rewrite read_splice by (simpl length; lia).
  unfold ret. rewrite le_value_le32. unfold u32.
  now rewrite Z.mod_mod by lia.
Qed.

Lemma read_msr_ok msr nl ol nh oh regs (w w1 : @world (byte_target T0))
    objl objh :
  asm "rdmsr" [OReg ECX (u32 msr)] w = Ok (regs, w1) ->
  nl <> nh ->
  objects w1 !! nl = Some objl -> objects w1 !! nh = Some objh ->
  0 <= ol -> ol + 4 <= Z.of_nat (length objl) ->
  0 <= oh -> oh + 4 <= Z.of_nat (length objh) ->
  read_msr msr (Ptr (Auto nl) ol) (Ptr (Auto nh) oh) w
  = Ok (tt, with_objects w1
              (<[nh := splice objh (Z.to_nat oh) (le32 (u32 (regs EDX)))]>
                 (<[nl := splice objl (Z.to_nat ol) (le32 (u32 (regs EAX)))]>
                    (objects w1)))).
Proof.
  intros Hmsr Hne Hl Hh Hl0 Hllen Hh0 Hhlen. unfold read_msr.
  rewrite (bind_ok _ _ _ _ _ Hmsr). unfold store_u32.
  erewrite bind_ok; cycle 1.
  { apply (store_bytes_ok nl ol _ w1 objl); [assumption | lia |].
    simpl length. lia. }
  rewrite (store_bytes_ok nh oh _ _ objh).
  - now rewrite with_objects_twice, objects_with_objects.
  - rewrite objects_with_objects. now rewrite lookup_insert_ne.
  - lia.
  - simpl length. lia.
Qed.

End Msr.

(** X11. [read_msr] hands the register halves back through its two
    pointers: given two distinct [uint32_t] objects, it returns, [*low]
    then reads as the low 32 bits of [eax] and [*high] as those of
    [edx], and no other object and no float array has changed since
    the instruction. *)
Theorem read_msr_stores_both_halves
    {T0 : Target} {X : @Externals (byte_target T0)}
    (msr : Z) (nl nh : string) (ol oh : Z) (regs : reg -> Z)
    (w w1 : @world (byte_target T0)) (objl objh : list Z) :
  asm "rdmsr" [OReg ECX (u32 msr)] w = Ok (regs, w1) ->
  nl <> nh ->
  objects w1 !! nl = Some objl -> objects w1 !! nh = Some objh ->
  0 <= ol -> ol + 4 <= Z.of_nat (length objl) ->
  0 <= oh -> oh + 4 <= Z.of_nat (length objh) ->
  exists w',
    read_msr msr (Ptr (Auto nl) ol) (Ptr (Auto nh) oh) w = Ok (tt, w')
    /\ load_u32 (Ptr (Auto nl) ol) w' = Ok (regs EAX mod 2 ^ 32, w')
    /\ load_u32 (Ptr (Auto nh) oh) w' = Ok (regs EDX mod 2 ^ 32, w')
    /\ w_mem w' = w_mem w1
    /\ (forall name, name <> nl -> name <> nh ->
          objects w' !! name = objects w1 !! name).
Proof.
  intros Hmsr Hne Hl Hh Hl0 Hllen Hh0 Hhlen. eexists.
  split; [apply (read_msr_ok msr nl ol nh oh regs w w1 objl objh);
          assumption |].
  repeat apply conj.
  - apply (load_u32_stored nl ol _ _ _ objl); [| assumption | assumption].
    rewrite lookup_insert_ne by congruence. apply lookup_insert_eq.
  - apply (load_u32_stored nh oh _ _ _ objh); [| assumption | assumption].
    apply lookup_insert_eq.
  - reflexivity.
  - intros name Hnl Hnh. rewrite objects_with_objects.
    now rewrite !lookup_insert_ne by congruence.
Qed.

Lemma read_msr_stores_both_halves_witness :
  exists w',
    @read_msr ref_target ref_byte_externals 16
      (Ptr (Auto "low") 0) (Ptr (Auto "high") 0) ref_byte_world
    = Ok (tt, w')
    /\ load_u32 (Ptr (Auto "low") 0) w' = Ok (7 mod 2 ^ 32, w')
    /\ load_u32 (Ptr (Auto "high") 0) w' = Ok (5 mod 2 ^ 32, w')
    /\ w_mem w' = w_mem ref_byte_world
    /\ (forall name, name <> "low" -> name <> "high" ->
          objects w' !! name = objects ref_byte_world !! name).
Proof.
  apply (@read_msr_stores_both_halves ref_target ref_byte_externals
           16 "low" "high" 0 0 (ref_regs (5 * 2 ^ 32 + 7))
           ref_byte_world ref_byte_world [0; 0; 0; 0] [0; 0; 0; 0]);
    try reflexivity; try discriminate; simpl; lia.
Defined.

(** ** [sse_crypto_hash] *)

Section Hash.
Context {T0 : Target}.

Lemma round_up16_bounds n : n <= round_up16 n < n + 16.
Proof. unfold round_up16. Z.div_mod_to_equations. lia. Qed.

Lemma round_up16_least n t : n <= 16 * t -> round_up16 n <= 16 * t.
Proof. unfold round_up16. Z.div_mod_to_equations. lia. Qed.

(** A pass that completes read sixteen bytes of one object and changed
    nothing. *)
Lemma hash_pass_inv data i state (w w' : @world (byte_target T0)) state' :
  sse_crypto_hash_body data i state w = Ok (state', w') ->
  w' = w /\ exists name obj,
    p_base data = Auto name /\ objects w !! name = Some obj
    /\ 0 <= p_ofs data + i
    /\ p_ofs data + i + 16 <= Z.of_nat (length obj).
Proof.
  unfold sse_crypto_hash_body, _mm_loadu_si128. intros Hpass.
  apply bind_ok_inv in Hpass as (block & w1 & Hload & Hret).
  apply bind_ok_inv in Hload as (bs & w2 & Hload & Hval).
  apply load_bytes_ok_inv in Hload
    as (-> & name & obj & Hbase & Hobj & H0 & Hlen).
  unfold ret in Hval, Hret. injection Hval as _ <-. injection Hret as _ <-.
  split; [reflexivity |]. exists name, obj. simpl in *.
  repeat apply conj; auto; lia.
Qed.

Lemma hash_pass_ok name ofs i state (w : @world (byte_target T0)) obj :
  objects w !! name = Some obj ->
  0 <= ofs + i -> ofs + i + 16 <= Z.of_nat (length obj) ->
  exists state',
    sse_crypto_hash_body (Ptr (Auto name) ofs) i state w = Ok (state', w).
Proof.
  intros Hobj H0 Hlen. unfold sse_crypto_hash_body, _mm_loadu_si128.
  eexists. unfold byte_elem. simpl p_base. simpl p_ofs.
  erewrite bind_ok; [reflexivity |].
  erewrite bind_ok; [reflexivity |].
  apply (load_bytes_ok 16 name (ofs + i) w obj); [assumption | lia | lia].
Qed.

(** A call that returns has written nothing. *)
Lemma hash_loop_pure fuel data len i state (w w' : @world (byte_target T0)) :
  sse_crypto_hash_loop fuel data len i state w = Ok (tt, w') -> w' = w.
Proof.
  revert i state. induction fuel as [| fuel IH]; intros i state;
    cbn [sse_crypto_hash_loop]; destruct (i <? len);
    try (intros [= <-]; reflexivity); try discriminate.
  intros Hloop.
  apply bind_ok_inv in Hloop as (state' & w1 & Hpass & Hloop).
  apply bind_ok_inv in Hloop as (i' & w2 & Hadd & Hloop).
  apply hash_pass_inv in Hpass as (-> & _).
  apply int_add_ok_world in Hadd as ->.
  eapply IH, Hloop.
Qed.

Lemma hash_loop_ok name ofs len obj (w : @world (byte_target T0)) fuel :
  objects w !! name = Some obj ->
  0 <= ofs -> ofs + round_up16 len <= Z.of_nat (length obj) ->
  round_up16 len <= INT_MAX ->
  forall t state,
    0 <= t -> 16 * t <= round_up16 len -> len - 16 * t <= Z.of_nat fuel ->
    sse_crypto_hash_loop fuel (Ptr (Auto name) ofs) len (16 * t) state w
    = Ok (tt, w).
Proof.
  intros Hobj H0 Hlen Hmax.
  induction fuel as [| fuel IH]; intros t state Ht0 Ht Hfuel;
    cbn [sse_crypto_hash_loop];
    destruct (Z.ltb_spec (16 * t) len) as [Hlt | Hge];
    try reflexivity; [lia |].
  assert (Hroom : 16 * t + 16 <= round_up16 len).
  { revert Ht Hlt. unfold round_up16. Z.div_mod_to_equations. lia. }
  destruct (hash_pass_ok name ofs (16 * t) state w obj Hobj)
    as (state' & Hpass); [lia | lia |].
  rewrite (bind_ok _ _ _ _ _ Hpass).
  assert (Hint : INT_MIN <= 16 * t + 16 <= INT_MAX).
  { unfold INT_MIN. unfold INT_MAX in *. lia. }
  erewrite (bind_ok (int_add _ _)) by exact (int_add_in_range _ _ _ Hint).
  replace (16 * t + 16) with (16 * (t + 1)) by lia.
  apply IH; lia.
Qed.

Lemma hash_loop_requires name ofs len obj fuel :
  forall i state (w w' : @world (byte_target T0)),
    objects w !! name = Some obj ->
    0 <= i -> i mod 16 = 0 -> i < len ->
    sse_crypto_hash_loop fuel (Ptr (Auto name) ofs) len i state w
      = Ok (tt, w') ->
    0 <= ofs + i /\ ofs + round_up16 len <= Z.of_nat (length obj)
    /\ round_up16 len <= INT_MAX.
Proof.
  induction fuel as [| fuel IH]; intros i state w w' Hobj Hi0 Hi16 Hlt;
    cbn [sse_crypto_hash_loop];
    replace (i <? len) with true by lia; [discriminate |].
  intros Hloop.
  apply bind_ok_inv in Hloop as (state' & w1 & Hpass & Hloop).
  apply bind_ok_inv in Hloop as (i' & w2 & Hadd & Hloop).
  pose proof (int_add_ok_range _ _ _ _ _ Hadd) as Hmax.
  pose proof (int_add_ok _ _ _ _ _ Hadd) as ->.
  apply int_add_ok_world in Hadd as ->.
  apply hash_pass_inv in Hpass
    as (-> & name' & obj' & [= <-] & Hobj' & Hp0 & Hplen).
  simpl in Hp0, Hplen. rewrite Hobj in Hobj'. injection Hobj' as <-.
  destruct (Z.lt_ge_cases (i + 16) len) as [Hmore | Hlast].
  - apply IH in Hloop as (_ & Hlen & Hint);
      [auto | assumption | lia
       | revert Hi16; Z.div_mod_to_equations; lia | lia].
  - assert (Hround : round_up16 len = i + 16).
    { revert Hi16 Hlt Hlast. unfold round_up16.
      Z.div_mod_to_equations. lia. }
    rewrite Hround. repeat apply conj; lia.
Qed.

End Hash.

(** X12. [sse_crypto_hash] keeps its hash to itself: the state it folds
    the blocks into is never stored or returned, so a call that
    returns leaves the whole world, byte objects, float arrays and
    environment, exactly as it found it. *)
Theorem sse_crypto_hash_leaves_no_trace {T0 : Target}
    (data : ptr) (len : Z) (w w' : @world (byte_target T0)) :
  sse_crypto_hash data len w = Ok (tt, w') -> w' = w.
Proof. apply hash_loop_pure. Qed.

Lemma sse_crypto_hash_leaves_no_trace_witness :
  @sse_crypto_hash ref_target (Ptr (Auto "data") 0) 20 ref_byte_world
    = Ok (tt, ref_byte_world)
  /\ ref_byte_world = ref_byte_world.
Proof.
  split; [vm_compute; reflexivity |].
  apply (@sse_crypto_hash_leaves_no_trace ref_target
           (Ptr (Auto "data") 0) 20).
  vm_compute. reflexivity.
Defined.

(** X13. [sse_crypto_hash] reads whole blocks of sixteen bytes: on a
    buffer and a positive length it returns exactly when the buffer
    holds the length rounded up to a multiple of sixteen from the
    pointer on (and that number fits in an [int]). A length that is no
    multiple of sixteen makes the last block reach past the length
    given. *)
Theorem sse_crypto_hash_reads_whole_blocks {T0 : Target}
    (name : string) (ofs len : Z) (w : @world (byte_target T0))
    (obj : list Z) :
  objects w !! name = Some obj ->
  0 < len ->
  (exists w', sse_crypto_hash (Ptr (Auto name) ofs) len w = Ok (tt, w'))
  <-> 0 <= ofs /\ ofs + round_up16 len <= Z.of_nat (length obj)
      /\ round_up16 len <= INT_MAX.
Proof.
  intros Hobj Hlen. unfold sse_crypto_hash. split.
  - intros (w' & Hcall).
    apply (hash_loop_requires name ofs len obj) in Hcall;
      [| assumption | lia | reflexivity | lia].
    now rewrite Z.add_0_r in Hcall.
  - intros (H0 & Hroom & Hmax). exists w.
    pose proof (round_up16_bounds len).
    apply (hash_loop_ok name ofs len obj w (Z.to_nat len) Hobj H0 Hroom Hmax
             0 _mm_setzero_si128); lia.
Qed.

Lemma sse_crypto_hash_reads_whole_blocks_witness :
  (exists w', @sse_crypto_hash ref_target (Ptr (Auto "data") 0) 20
                ref_byte_world = Ok (tt, w'))
  <-> 0 <= 0 /\ 0 + round_up16 20 <= 32 /\ round_up16 20 <= INT_MAX.
Proof.
  apply (@sse_crypto_hash_reads_whole_blocks ref_target "data" 0 20
           ref_byte_world (replicate 32 170)).
  - reflexivity.
  - lia.
Defined.

(** Thirteen bytes are not a whole block. *)
Example sse_crypto_hash_short_buffer :
  @sse_crypto_hash ref_target (Ptr (Auto "vendor") 0) 13 ref_byte_world
  = Fault InvalidAccess.
Proof. reflexivity. Qed.
